(** * ExpressionParser: the feature cache and the expression evaluators

    A shallow embedding of [src/utils/ExpressionParser.js]:
    - [ExpressionFeatureCache] (static [store], [requests], [get], [clear]);
    - [parseExpression] (the fixpoint evaluator, one call per round);
    - [parseExpressionsAsync] (the batch evaluator).

    The cache is process-wide mutable state shared by every evaluator, so
    it is modelled as an explicit state that all operations thread.  The
    external [editIface.getFeatures] is modelled by the list of callbacks
    it still owes: a callback fires (with an arbitrary result) whenever the
    environment decides, which covers every interleaving of the event loop. *)

From Stdlib Require Import ZArith Ascii.
From stdpp Require Import base gmap strings list pretty.


Set Warnings "-register-all".

(** ** JavaScript values *)

(** The values expressions compute with and the features [getFeatures]
    returns (a feature is a JS object). *)
Inductive jsvalue :=
| VNull
| VBool (b : bool)
| VNum (z : Z)
| VStr (s : string)
| VArr (l : list jsvalue)
| VObj (fields : list (string * jsvalue)).

(** Induction through the lists of arrays and objects. *)
Section jsvalue_nested_ind.
Context (P : jsvalue → Prop) (HNull : P VNull) (HBool : ∀ b, P (VBool b))
  (HNum : ∀ z, P (VNum z)) (HStr : ∀ s, P (VStr s))
  (HArr : ∀ l, Forall P l → P (VArr l))
  (HObj : ∀ f, Forall (λ p, P p.2) f → P (VObj f)).

Fixpoint jsvalue_nested_ind (x : jsvalue) : P x :=
  match x with
  | VNull => HNull
  | VBool b => HBool b
  | VNum z => HNum z
  | VStr s => HStr s
  | VArr l =>
      HArr l ((fix go (l : list jsvalue) : Forall P l :=
                 match l with
                 | [] => Forall_nil_2 _
                 | y :: l' => Forall_cons_2 _ y l' (jsvalue_nested_ind y) (go l')
                 end) l)
  | VObj f =>
      HObj f ((fix go (f : list (string * jsvalue)) : Forall (λ p, P p.2) f :=
                 match f with
                 | [] => Forall_nil_2 _
                 | (k, y) :: f' => Forall_cons_2 (λ p, P p.2) (k, y) f' (jsvalue_nested_ind y) (go f')
                 end) f)
  end.
End jsvalue_nested_ind.

(** Structural equality of values. *)
Fixpoint jsvalue_eqb (x y : jsvalue) : bool :=
  match x, y with
  | VNull, VNull => true
  | VBool b, VBool b' => Bool.eqb b b'
  | VNum z, VNum z' => Z.eqb z z'
  | VStr s, VStr s' => String.eqb s s'
  | VArr l, VArr l' =>
      (fix go (l l' : list jsvalue) : bool :=
         match l, l' with
         | [], [] => true
         | x :: l, y :: l' => jsvalue_eqb x y && go l l'
         | _, _ => false
         end) l l'
  | VObj f, VObj f' =>
      (fix go (f f' : list (string * jsvalue)) : bool :=
         match f, f' with
         | [], [] => true
         | (k, x) :: f, (k', y) :: f' => String.eqb k k' && jsvalue_eqb x y && go f f'
         | _, _ => false
         end) f f'
  | _, _ => false
  end.

Lemma jsvalue_eqb_spec x y : jsvalue_eqb x y = true ↔ x = y.
Proof.
  revert y. induction x as [| b | z | s | l Hl | f Hf] using jsvalue_nested_ind;
    intros [|b'|z'|s'|l'|f']; simpl; try (split; congruence).
  - rewrite Bool.eqb_true_iff. split; congruence.
  - rewrite Z.eqb_eq. split; congruence.
  - rewrite String.eqb_eq. split; congruence.
  - revert l'. induction Hl as [|x l Hx Hl IH]; intros [|y l']; simpl; try (split; congruence).
    specialize (IH l').
    rewrite andb_true_iff, Hx, IH. split; [intros [-> Heq]; congruence|].
    intros Heq. injection Heq as -> ->. done.
  - revert f'. induction Hf as [|[k x] f Hx Hf IH]; intros [|[k' y] f']; simpl; try (split; congruence).
    specialize (IH f'). simpl in Hx.
    rewrite !andb_true_iff, String.eqb_eq, Hx, IH. split; [intros [[-> ->] Heq]; congruence|].
    intros Heq. injection Heq as -> -> ->. done.
Qed.

#[global] Instance jsvalue_eq_dec : EqDecision jsvalue.
Proof.
  intros x y. destruct (jsvalue_eqb x y) eqn:H.
  - left. by apply jsvalue_eqb_spec.
  - right. intros Heq. apply jsvalue_eqb_spec in Heq. congruence.
Defined.

(** [String(v)]: the conversion [+] applies to a non-string operand of a
    string concatenation (numbers are the integers of [VNum]; an array
    joins its elements with [","], [null] elements giving [""]). *)
Fixpoint js_string (v : jsvalue) : string :=
  match v with
  | VNull => "null"
  | VBool true => "true"
  | VBool false => "false"
  | VNum z => pretty z
  | VStr s => s
  | VArr l =>
      String.concat ","
        (map (λ x, match x with VNull => ""%string | _ => js_string x end) l)
  | VObj _ => "[object Object]"
  end.

(** ** ExpressionFeatureCache *)

Module ExpressionFeatureCache.

(** The static fields of [ExpressionFeatureCache] ([store], a JS object
    used as a map, and [requests], a [Set]), together with the callbacks
    handed to [editIface.getFeatures] that have not fired yet.  Each
    callback is the closure created in [get]; it only captures [key] and
    reads [this.store] / [this.requests] when it runs. *)
Record cache_state := mkCache {
  store : gmap string jsvalue;
  requests : gset string;
  callbacks : list (nat * string);
  next_cb : nat
}.

Definition init_state : cache_state :=
  {| store := ∅; requests := ∅; callbacks := []; next_cb := 0 |}.

(** [const key = dataset + ":" + attr + ":" + value;]: the concatenation
    converts [value], whatever JS value the expression passed, to a
    string. *)
Definition cache_key (dataset attr : string) (value : jsvalue) : string :=
  (dataset +:+ ":" +:+ attr +:+ ":" +:+ js_string value)%string.

(** [(result?.features || []).length === 1 ? result.features[0] : null];
    [None] is a [result] that is null/undefined or has no [features]. *)
Definition fetch_outcome (result : option (list jsvalue)) : jsvalue :=
  match default [] result with
  | [f] => f
  | _ => VNull
  end.

(** [ExpressionFeatureCache.get]: returns the value handed to the
    expression, the new state, and the promise pushed onto the caller's
    [promises] list (the id of the callback it waits for), if any. *)
Definition get (dataset attr : string) (value : jsvalue) (c : cache_state)
    : jsvalue * cache_state * option nat :=
  let key := cache_key dataset attr value in
  match store c !! key with
  | Some v => (v, c, None)
  | None =>
      if decide (key ∈ requests c) then (VNull, c, None)
      else
        let id := next_cb c in
        (VNull,
         {| store := store c;
            requests := {[key]} ∪ requests c;
            callbacks := callbacks c ++ [(id, key)];
            next_cb := S id |},
         Some id)
  end.

(** The body of the callback passed to [getFeatures] (before [accept()]). *)
Definition on_result (key : string) (result : option (list jsvalue))
    (c : cache_state) : cache_state :=
  if decide (key ∈ requests c) then
    {| store := <[key := fetch_outcome result]> (store c);
       requests := requests c ∖ {[key]};
       callbacks := callbacks c;
       next_cb := next_cb c |}
  else c.

(** [ExpressionFeatureCache.clear]: fresh [store] and [requests]; the
    callbacks already handed to [getFeatures] are still owed. *)
Definition clear (c : cache_state) : cache_state :=
  {| store := ∅; requests := ∅; callbacks := callbacks c; next_cb := next_cb c |}.

End ExpressionFeatureCache.
Import ExpressionFeatureCache.

Fixpoint find_cb (id : nat) (l : list (nat * string)) : option string :=
  match l with
  | [] => None
  | (i, k) :: l' => if Nat.eqb i id then Some k else find_cb id l'
  end.

(** [getFeatures] calls the callback with id [id] and [result]. *)
Definition fire (id : nat) (result : option (list jsvalue)) (c : cache_state)
    : cache_state :=
  match find_cb id (callbacks c) with
  | Some key =>
      on_result key result
        {| store := store c; requests := requests c;
           callbacks := filter (λ p, p.1 ≠ id) (callbacks c);
           next_cb := next_cb c |}
  | None => c
  end.

(** ** The event loop seen by the cache *)

(** A [getFeature(...)] call of any evaluator (with [mapPrefix + layerName]
    already prefixed), a [getFeatures] callback firing, or a host call of
    [clear()]. *)
Inductive event :=
| EGet (dataset attr : string) (value : jsvalue)
| EFire (id : nat) (result : option (list jsvalue))
| EClear.

(** A call of [editIface.getFeatures(dataset, mapCrs, cb, null,
    [[attr, '=', value]])]: the dataset and the filter. *)
Definition dispatch : Type := string * string * jsvalue.

Definition dkey (d : dispatch) : string := cache_key d.1.1 d.1.2 d.2.

Definition step (c : cache_state) (e : event) : cache_state * list dispatch :=
  match e with
  | EGet ds a v =>
      let '(_, c', p) := get ds a v c in
      (c', match p with Some _ => [(ds, a, v)] | None => [] end)
  | EFire id r => (fire id r c, [])
  | EClear => (clear c, [])
  end.

Fixpoint run (c : cache_state) (evs : list event) : cache_state * list dispatch :=
  match evs with
  | [] => (c, [])
  | e :: evs' =>
      let '(c1, d1) := step c e in
      let '(c2, d2) := run c1 evs' in
      (c2, d1 ++ d2)
  end.

Definition no_clear (evs : list event) : Prop := Forall (λ e, e ≠ EClear) evs.

(** ** The expression evaluators *)

(** The line feed character. *)
Definition nl : ascii := "010"%char.

(** [expr.replace(/\n/, ' ')]: a regular expression without the [g] flag
    replaces the first match only. *)
Fixpoint replace_first_nl (s : string) : string :=
  match s with
  | EmptyString => EmptyString
  | String ch s' =>
      if Ascii.eqb ch nl then String " "%char s' else String ch (replace_first_nl s')
  end.

(** One [parser.feed(text)] followed by [parser.results[0]], as seen from
    the evaluator: the grammar's actions read the ambient
    [window.qwc2ExpressionParserContext] and may call its
    [getFeature(layerName, attr, value)], continuing with the answer; the
    run ends with [results[0]] or throws. *)
Inductive feed_run :=
| FThrow
| FDone (result : jsvalue)
| FGetFeature (layerName attr : string) (value : jsvalue) (k : jsvalue → feed_run).

(** The grammar ([./expr_grammar/grammar] driven by nearley) maps the
    context's [feature] and [asFilter] and the text to such a run.  It is
    not part of the sources, so the evaluators take it as a parameter and
    the theorems about them hold for every grammar. *)
Definition grammar_t : Type := jsvalue → bool → string → feed_run.

(** [parser.feed(expr.replace(/\n/, ' '))]: the run both evaluators start. *)
Definition feed_text (grammar : grammar_t) (feature : jsvalue) (asFilter : bool)
    (expr : string) : feed_run :=
  grammar feature asFilter (replace_first_nl expr).

Definition option_list {A} (o : option A) : list A :=
  match o with Some x => [x] | None => [] end.

(** Executes a run against the cache; [getFeature] prefixes the layer name
    with [mapPrefix] and pushes the promise [get] returns onto [promises].
    [None] as result: the run threw. *)
Fixpoint run_feed (mapPrefix : string) (p : feed_run) (c : cache_state)
    (promises : list nat) : cache_state * list nat * option jsvalue :=
  match p with
  | FThrow => (c, promises, None)
  | FDone r => (c, promises, Some r)
  | FGetFeature layerName attr value k =>
      let '(v, c', pr) := get (mapPrefix +:+ layerName) attr value c in
      run_feed mapPrefix (k v) c' (promises ++ option_list pr)
  end.

Definition warning (expr : string) : string :=
  "Failed to evaluate expression " +:+ replace_first_nl expr.

(** What a call of [parseExpression] does besides returning: schedule the
    next round after [Promise.all(promises)], call [reevaluateCallback()],
    or neither. *)
Inductive effect :=
| Reschedule (promises : list nat)
| Callback
| NoCallback.

Record pe_out := mkPeOut {
  pe_state : cache_state;
  pe_warnings : list string;
  pe_return : jsvalue;
  pe_effect : effect
}.

(** One call of [parseExpression(expr, feature, editIface, mapPrefix,
    mapCrs, reevaluateCallback, asFilter, reevaluate)]. *)
Definition parseExpression (grammar : grammar_t) (expr : string) (feature : jsvalue)
    (mapPrefix : string) (asFilter reevaluate : bool) (c : cache_state) : pe_out :=
  let '(c', promises, r) := run_feed mapPrefix (feed_text grammar feature asFilter expr) c [] in
  let warnings := match r with None => [warning expr] | Some _ => [] end in
  let result := default VNull r in
  match promises with
  | _ :: _ => mkPeOut c' warnings VNull (Reschedule promises)
  | [] =>
      mkPeOut c' warnings (if asFilter then VArr [result] else result)
        (if reevaluate then Callback else NoCallback)
  end.

(** The rounds of one top-level call: [cs] lists the cache states at which
    the successive rounds start, the first one at the call, each later one
    whatever the event loop has made of the cache once [Promise.all] of the
    previous round's promises has resolved. *)
Fixpoint pe_rounds (grammar : grammar_t) (expr : string) (feature : jsvalue)
    (mapPrefix : string) (asFilter : bool) (cs : list cache_state) (reevaluate : bool)
    : list pe_out :=
  match cs with
  | [] => []
  | c :: cs' =>
      let o := parseExpression grammar expr feature mapPrefix asFilter reevaluate c in
      o :: match pe_effect o with
           | Reschedule _ => pe_rounds grammar expr feature mapPrefix asFilter cs' true
           | _ => []
           end
  end.

Definition is_callback (e : effect) : bool :=
  match e with Callback => true | _ => false end.

(** How many times [reevaluateCallback] was invoked over the rounds [os]. *)
Definition count_callbacks (os : list pe_out) : nat :=
  length (filter (λ o, is_callback (pe_effect o) = true) os).

Definition is_reschedule (e : effect) : bool :=
  match e with Reschedule _ => true | _ => false end.

(** Whether the last round of [os] returned a final value. *)
Definition settles (os : list pe_out) : bool :=
  match last os with
  | Some o => negb (is_reschedule (pe_effect o))
  | None => false
  end.

(** The [reduce] of [parseExpressionsAsync] over [Object.entries(expressions)]
    with the shared [promises] list: a failed run is dropped from the
    mapping (and warned about); the promises it pushed stay. *)
Definition batch_step (grammar : grammar_t) (feature : jsvalue) (mapPrefix : string)
    (asFilter : bool)
    (acc : cache_state * gmap string jsvalue * list nat * list string)
    (entry : string * string)
    : cache_state * gmap string jsvalue * list nat * list string :=
  let '(c, res, promises, warns) := acc in
  let '(key, expr) := entry in
  let '(c', promises', r) := run_feed mapPrefix (feed_text grammar feature asFilter expr) c promises in
  match r with
  | Some v => (c', <[key := v]> res, promises', warns)
  | None => (c', res, promises', warns ++ [warning expr])
  end.

Definition batch_pass (grammar : grammar_t) (expressions : list (string * string))
    (feature : jsvalue) (mapPrefix : string) (asFilter : bool) (c : cache_state)
    : cache_state * gmap string jsvalue * list nat * list string :=
  fold_left (batch_step grammar feature mapPrefix asFilter) expressions (c, ∅, [], []).

(** [parseExpressionsAsync]: returns the cache state once its synchronous
    part is over and the mapping the returned promise resolves with.  On
    line 98, [Promise.all(promises).then(parseExpressionsAsync(...).then(resolve(results)))]
    evaluates its argument at once: the nested call runs synchronously
    (bounded here by [fuel]), then [resolve(results)] resolves the promise
    with this pass's [results]; [then] of a non-function is ignored. *)
Fixpoint parseExpressionsAsync (fuel : nat) (grammar : grammar_t)
    (expressions : list (string * string)) (feature : jsvalue) (mapPrefix : string)
    (asFilter : bool) (c : cache_state) : cache_state * gmap string jsvalue :=
  let '(c1, results, promises, _) := batch_pass grammar expressions feature mapPrefix asFilter c in
  match promises with
  | [] => (c1, results)
  | _ :: _ =>
      match fuel with
      | O => (c1, results)
      | S fuel' =>
          let '(c2, _) := parseExpressionsAsync fuel' grammar expressions feature mapPrefix asFilter c1 in
          (c2, results)
      end
  end.

(** ** Grammars modelled from the spec *)

(** Modelled from the spec: the grammar [./expr_grammar/grammar] is not
    part of the sources.  Section 1 of the spec gives the parser the
    contract [parse(text) -> Tree | ParseError], and section 4.3 runs the
    tree against the evaluation context once the text has parsed: a text
    that does not parse throws before any action runs. *)
Definition spec_grammar {Tree : Type} (parse : string → option Tree)
    (evaluate : Tree → jsvalue → bool → feed_run) : grammar_t :=
  λ feature asFilter text,
    match parse text with
    | None => FThrow
    | Some t => evaluate t feature asFilter
    end.

(** Field [name] of a feature; [null] for anything else. *)
Definition field (name : string) (f : jsvalue) : jsvalue :=
  match f with
  | VObj fields =>
      match list_find (λ p, p.1 = name) fields with
      | Some (_, p) => p.2
      | None => VNull
      end
  | _ => VNull
  end.

(** Modelled from the spec: the texts of scenarios B and E of section 8
    ([1+1] and a foreign lookup of a parcel's [area]); any other text is a
    syntax error. *)
Definition scenario_grammar : grammar_t :=
  λ feature asFilter text,
    if decide (text = "1+1") then FDone (VNum 2)
    else if decide (text = "getFeature('parcels','id','42').area") then
      FGetFeature "parcels" "id" (VStr "42") (λ f, FDone (field "area" f))
    else FThrow.

(** The parcel [{id: "42", area: 150}] of scenario B. *)
Definition parcel42 : jsvalue := VObj [("id", VStr "42"); ("area", VNum 150)].

(** A key is known to the cache when it is pending or resolved. *)
Definition known (c : cache_state) (k : string) : Prop :=
  k ∈ requests c ∨ is_Some (store c !! k).

(** Number of [getFeatures] dispatches whose cache key is [k]. *)
Definition count_key (k : string) (l : list dispatch) : nat :=
  length (filter (λ d, dkey d = k) l).

(** The cache never holds a key both pending and resolved. *)
Definition wf (c : cache_state) : Prop :=
  ∀ k, k ∈ requests c → store c !! k = None.

(** [s] does not contain the character [ch]. *)
Fixpoint no_char (ch : ascii) (s : string) : bool :=
  match s with
  | EmptyString => true
  | String ch' s' => negb (Ascii.eqb ch' ch) && no_char ch s'
  end.

Abbreviation no_colon := (no_char ":"%char).

(** Callback ids are below [next_cb] and pairwise distinct. *)
Definition ids_fresh (c : cache_state) : Prop :=
  (∀ i k, (i, k) ∈ callbacks c → i < next_cb c) ∧ NoDup (callbacks c).*1.

(** Every pending key has a [getFeatures] callback still owed for it. *)
Definition owed (c : cache_state) : Prop :=
  ∀ k, k ∈ requests c → ∃ i, (i, k) ∈ callbacks c.

(** The keys the promises [ps] wait for, read off the owed callbacks. *)
Definition promise_keys (c : cache_state) (ps : list nat) : list (option string) :=
  (λ id, find_cb id (callbacks c)) <$> ps.

(** The promises of a round: distinct keys, each pending with an owed
    callback. *)
Definition promises_ok (c : cache_state) (ps : list nat) : Prop :=
  ids_fresh c ∧ NoDup (promise_keys c ps) ∧
  ∀ id, id ∈ ps → ∃ k, find_cb id (callbacks c) = Some k ∧ k ∈ requests c.

(** The promises [ps] of a run that started on cache [c0] were all pushed
    by [getFeature] calls of the run itself: each waits for a callback
    whose key was neither pending nor stored in [c0]. *)
Definition promises_from (c0 c : cache_state) (ps : list nat) : Prop :=
  ids_fresh c ∧ requests c0 ⊆ requests c ∧ store c = store c0 ∧
  ∀ id, id ∈ ps → ∃ k, find_cb id (callbacks c) = Some k ∧ (k ∉ requests c0) ∧ store c0 !! k = None.

(** A key that is neither pending nor stored stays so while no [get] of
    it happens: a callback of a request made before [clear()] finds it
    no longer pending. *)
Definition gets_other (k : string) (e : event) : Prop :=
  ∀ ds a v, e = EGet ds a v → cache_key ds a v ≠ k.

(** The run [p], started on cache [c] with promises [ps], reaches the run
    [p'] with cache [c'] and promises [ps'] after answering its [getFeature]
    calls as [run_feed] does. *)
Inductive feed_reaches (mapPrefix : string)
    : feed_run → cache_state → list nat → feed_run → cache_state → list nat → Prop :=
| reaches_here p c ps : feed_reaches mapPrefix p c ps p c ps
| reaches_get l a v k c ps x c1 pr p' c' ps' :
    get (mapPrefix +:+ l) a v c = (x, c1, pr) →
    feed_reaches mapPrefix (k x) c1 (ps ++ option_list pr) p' c' ps' →
    feed_reaches mapPrefix (FGetFeature l a v k) c ps p' c' ps'.

(** ** Cache lemmas *)

Lemma count_key_app k l1 l2 :
  count_key k (l1 ++ l2) = count_key k l1 + count_key k l2.
Proof. unfold count_key. by rewrite filter_app, length_app. Qed.

Lemma count_triple_le_key (t : dispatch) (l : list dispatch) :
  length (filter (λ d, d = t) l) ≤ count_key (dkey t) l.
Proof.
  unfold count_key. induction l as [|d l IH]; simpl; [lia|].
  rewrite !filter_cons. do 2 case_decide; subst; simpl; try lia; congruence.
Qed.

Lemma clear_unknown c k : ¬ known (clear c) k.
Proof. unfold known, ExpressionFeatureCache.clear; simpl. rewrite lookup_empty. intros [H|H]; [set_solver|by inversion H]. Qed.

Lemma fire_cases id r c :
  fire id r c = c ∨
  ∃ key, store (fire id r c) = store (on_result key r c)
       ∧ requests (fire id r c) = requests (on_result key r c).
Proof.
  unfold fire. destruct (find_cb id (callbacks c)) as [key|]; [right|by left].
  exists key. unfold on_result; simpl. by case_decide.
Qed.

Lemma on_result_known key r c k : known c k → known (on_result key r c) k.
Proof.
  unfold known, on_result. case_decide; simpl; [|done].
  destruct (decide (key = k)) as [->|Hne].
  - intros _. right. by rewrite lookup_insert_eq.
  - intros [H'|H']; [left; set_solver|right; by rewrite lookup_insert_ne].
Qed.

Lemma on_result_unknown key r c k : ¬ known c k → ¬ known (on_result key r c) k.
Proof.
  unfold known, on_result. case_decide; simpl; [|done].
  intros Hk. assert (key ≠ k) by (intros ->; apply Hk; by left).
  rewrite lookup_insert_ne by done. set_solver.
Qed.

Lemma known_ext c c' k :
  store c' = store c → requests c' = requests c → known c k → known c' k.
Proof. unfold known. by intros -> ->. Qed.

Lemma fire_known id r c k : known c k → known (fire id r c) k.
Proof.
  intros Hk. destruct (fire_cases id r c) as [->|[key [Hs Hr]]]; [done|].
  apply (known_ext (on_result key r c)); [done|done|by apply on_result_known].
Qed.

Lemma fire_unknown id r c k : ¬ known c k → ¬ known (fire id r c) k.
Proof.
  intros Hk. destruct (fire_cases id r c) as [->|[key [Hs Hr]]]; [done|].
  intros H. apply (on_result_unknown key r c k Hk).
  by apply (known_ext (fire id r c)).
Qed.

Lemma step_known c e k :
  e ≠ EClear → known c k →
  known (step c e).1 k ∧ count_key k (step c e).2 = 0.
Proof.
  intros He Hk. destruct e as [ds a v|id r|]; [|split; [by apply fire_known|done]|done].
  unfold step, get. destruct (store c !! cache_key ds a v) eqn:Hs; [done|].
  case_decide as Hr; [done|]. simpl. split.
  - destruct Hk as [Hk|Hk]; [left; set_solver|by right].
  - unfold count_key. rewrite filter_cons_False; [done|].
    unfold dkey; simpl. intros <-. destruct Hk as [Hk|Hk]; [done|].
    rewrite Hs in Hk. by inversion Hk.
Qed.

Lemma step_unknown c e k :
  e ≠ EClear → ¬ known c k →
  (¬ known (step c e).1 k ∧ count_key k (step c e).2 = 0) ∨
  (known (step c e).1 k ∧ count_key k (step c e).2 = 1).
Proof.
  intros He Hk. destruct e as [ds a v|id r|]; [|left; split; [by apply fire_unknown|done]|done].
  unfold step, get. destruct (store c !! cache_key ds a v) eqn:Hs; [by left|].
  case_decide as Hr; [by left|]. simpl.
  destruct (decide (cache_key ds a v = k)) as [<-|Hne].
  - right. split; [left; set_solver|].
    unfold count_key. rewrite filter_cons_True; done.
  - left. split.
    + unfold known; simpl. intros [H|H]; apply Hk; [left; set_solver|by right].
    + unfold count_key. rewrite filter_cons_False; done.
Qed.

Lemma run_count_key c evs k :
  no_clear evs →
  (known c k → count_key k (run c evs).2 = 0) ∧
  (¬ known c k → count_key k (run c evs).2 ≤ 1).
Proof.
  revert c. induction evs as [|e evs IH]; intros c Hnc; simpl; [unfold count_key; simpl; lia|].
  inversion Hnc as [|? ? He Hnc']; subst.
  destruct (step c e) as [c1 d1] eqn:Hstep.
  destruct (run c1 evs) as [c2 d2] eqn:Hrun. simpl.
  rewrite count_key_app.
  pose proof (IH c1 Hnc') as [IH1 IH2]. rewrite Hrun in IH1, IH2. simpl in IH1, IH2.
  split; intros Hk.
  - pose proof (step_known c e k He Hk) as [Hk1 Hd]. rewrite Hstep in Hk1, Hd.
    simpl in *. rewrite Hd, IH1 by done. lia.
  - destruct (step_unknown c e k He Hk) as [[Hk1 Hd]|[Hk1 Hd]];
      rewrite Hstep in Hk1, Hd; simpl in *.
    + specialize (IH2 Hk1). lia.
    + rewrite IH1 by done. lia.
Qed.

Lemma step_wf c e : wf c → wf (step c e).1.
Proof.
  unfold wf. intros Hwf. destruct e as [ds a v|id r|]; simpl.
  - unfold get. destruct (store c !! cache_key ds a v) eqn:Hs; [done|].
    case_decide; [done|]. simpl. intros k Hk.
    apply elem_of_union in Hk as [Hk|Hk]; [|by apply Hwf].
    apply elem_of_singleton in Hk. by subst.
  - unfold fire. destruct (find_cb id (callbacks c)) as [key|]; [|done].
    unfold on_result; simpl. case_decide; simpl; [|done].
    intros k Hk. apply elem_of_difference in Hk as [Hk Hk'].
    rewrite lookup_insert_ne by set_solver. by apply Hwf.
  - intros k Hk. set_solver.
Qed.

Lemma run_wf c evs : wf c → wf (run c evs).1.
Proof.
  revert c. induction evs as [|e evs IH]; intros c Hc; simpl; [done|].
  destruct (step c e) as [c1 d1] eqn:Hs. destruct (run c1 evs) as [c2 d2] eqn:Hr.
  simpl. change c2 with (c2, d2).1. rewrite <- Hr. apply IH.
  change c1 with (c1, d1).1. rewrite <- Hs. by apply step_wf.
Qed.

Lemma init_wf : wf init_state.
Proof. intros k Hk. simpl in Hk. set_solver. Qed.

Lemma step_store_kept c e k x :
  wf c → e ≠ EClear → store c !! k = Some x → store (step c e).1 !! k = Some x.
Proof.
  intros Hwf He Hk. destruct e as [ds a v|id r|]; simpl; [|clear He|done].
  - unfold get. destruct (store c !! cache_key ds a v); [done|].
    by case_decide.
  - unfold fire. destruct (find_cb id (callbacks c)) as [key|]; [|done].
    unfold on_result; simpl. case_decide as Hin; simpl; [|done].
    rewrite lookup_insert_ne; [done|]. intros ->.
    rewrite (Hwf k Hin) in Hk. discriminate.
Qed.

Lemma run_store_kept c evs k x :
  wf c → no_clear evs → store c !! k = Some x → store (run c evs).1 !! k = Some x.
Proof.
  revert c. induction evs as [|e evs IH]; intros c Hwf Hnc Hk; simpl; [done|].
  inversion Hnc as [|? ? He Hnc']; subst.
  destruct (step c e) as [c1 d1] eqn:Hs. destruct (run c1 evs) as [c2 d2] eqn:Hr.
  simpl. change c2 with (c2, d2).1. rewrite <- Hr. apply IH; [| done |].
  - change c1 with (c1, d1).1. rewrite <- Hs. by apply step_wf.
  - change c1 with (c1, d1).1. rewrite <- Hs. by apply step_store_kept.
Qed.

Lemma get_resolved c ds a v x :
  store c !! cache_key ds a v = Some x → get ds a v c = (x, c, None).
Proof. intros H. unfold get. by rewrite H. Qed.

Lemma fire_pending c id key r :
  find_cb id (callbacks c) = Some key → key ∈ requests c →
  store (fire id r c) = <[key := fetch_outcome r]> (store c) ∧
  requests (fire id r c) = requests c ∖ {[key]}.
Proof.
  intros Hf Hin. unfold fire. rewrite Hf. unfold on_result; simpl.
  by case_decide.
Qed.

Lemma not_requested_step c e k :
  (∀ ds a v, e = EGet ds a v → cache_key ds a v ≠ k) →
  k ∉ requests c → k ∉ requests (step c e).1.
Proof.
  intros He Hk. destruct e as [ds a v|id r|]; simpl.
  - specialize (He ds a v eq_refl). unfold get.
    destruct (store c !! cache_key ds a v); [done|].
    case_decide; [done|]. simpl. set_solver.
  - unfold fire. destruct (find_cb id (callbacks c)) as [key|]; [|done].
    unfold on_result; simpl. case_decide; simpl; [set_solver|done].
  - set_solver.
Qed.

Lemma not_requested_run c evs k :
  Forall (λ e, ∀ ds a v, e = EGet ds a v → cache_key ds a v ≠ k) evs →
  k ∉ requests c → k ∉ requests (run c evs).1.
Proof.
  revert c. induction evs as [|e evs IH]; intros c Hf Hk; simpl; [done|].
  inversion Hf as [|? ? He Hf']; subst.
  destruct (step c e) as [c1 d1] eqn:Hs. destruct (run c1 evs) as [c2 d2] eqn:Hr.
  simpl. change c2 with (c2, d2).1. rewrite <- Hr. apply IH; [done|].
  change c1 with (c1, d1).1. rewrite <- Hs. by apply not_requested_step.
Qed.

Lemma no_colon_split (s1 s2 r1 r2 : string) :
  no_colon s1 = true → no_colon s2 = true →
  (s1 +:+ String ":" r1)%string = (s2 +:+ String ":" r2)%string →
  s1 = s2 ∧ r1 = r2.
Proof.
  revert s2. induction s1 as [|ch s1 IH]; intros [|ch' s2] H1 H2 Heq; simpl in *.
  - by injection Heq.
  - injection Heq as <- _. discriminate.
  - injection Heq as -> _. discriminate.
  - apply andb_prop in H1 as [_ H1]. apply andb_prop in H2 as [_ H2].
    injection Heq as -> Heq. destruct (IH s2 H1 H2 Heq) as [-> ->]. done.
Qed.

Lemma parseExpressionsAsync_resolves_first_pass fuel grammar expressions feature
    mapPrefix asFilter c :
  (parseExpressionsAsync fuel grammar expressions feature mapPrefix asFilter c).2
  = (batch_pass grammar expressions feature mapPrefix asFilter c).1.1.2.
Proof.
  destruct fuel as [|fuel]; simpl;
    destruct (batch_pass grammar expressions feature mapPrefix asFilter c)
      as [[[c1 res] [|p ps]] w]; simpl; try done.
  by destruct (parseExpressionsAsync fuel grammar expressions feature mapPrefix asFilter c1).
Qed.

Lemma find_cb_filter_out id (l : list (nat * string)) :
  find_cb id (filter (λ p, p.1 ≠ id) l) = None.
Proof.
  induction l as [|[i k] l IH]; [done|]. rewrite filter_cons.
  case_decide as H; simpl in *; [|done].
  destruct (Nat.eqb_spec i id); [done|]. exact IH.
Qed.

Lemma fire_resolves id r c : find_cb id (callbacks (fire id r c)) = None.
Proof.
  unfold fire. destruct (find_cb id (callbacks c)) eqn:Hf; [|done].
  unfold on_result. case_decide; simpl; apply find_cb_filter_out.
Qed.

Lemma cache_key_inj ds a v ds' a' v' :
  no_colon ds = true → no_colon a = true → no_colon ds' = true → no_colon a' = true →
  cache_key ds a v = cache_key ds' a' v' → (ds, a, js_string v) = (ds', a', js_string v').
Proof.
  intros H1 H2 H3 H4 Heq. unfold cache_key in Heq. simpl in Heq.
  destruct (no_colon_split _ _ _ _ H1 H3 Heq) as [-> Heq'].
  destruct (no_colon_split _ _ _ _ H2 H4 Heq') as [-> ->]. done.
Qed.

Lemma pe_effect_cases grammar expr feature mapPrefix asFilter reevaluate c :
  let o := parseExpression grammar expr feature mapPrefix asFilter reevaluate c in
  is_reschedule (pe_effect o) = true ∨
  pe_effect o = (if reevaluate then Callback else NoCallback).
Proof.
  unfold parseExpression.
  destruct (run_feed mapPrefix (feed_text grammar feature asFilter expr) c [])
    as [[c' [|p ps]] r]; simpl; [by right|by left].
Qed.

Lemma last_cons_cons {A} (x y : A) (l : list A) : last (x :: y :: l) = last (y :: l).
Proof. done. Qed.

Lemma pe_rounds_count grammar expr feature mapPrefix asFilter cs reevaluate :
  let os := pe_rounds grammar expr feature mapPrefix asFilter cs reevaluate in
  count_callbacks os = if settles os && (reevaluate || (2 <=? length os)) then 1 else 0.
Proof.
  revert reevaluate. induction cs as [|c cs IH]; intros reevaluate; simpl; [done|].
  destruct (pe_effect_cases grammar expr feature mapPrefix asFilter reevaluate c) as [Hr|He].
  - destruct (pe_effect (parseExpression grammar expr feature mapPrefix asFilter reevaluate c))
      eqn:Hp; try discriminate.
    specialize (IH true). simpl in IH.
    unfold count_callbacks in *. rewrite filter_cons_False by (rewrite Hp; done).
    rewrite IH. unfold settles. destruct (pe_rounds grammar expr feature mapPrefix asFilter cs true)
      as [|o' os'] eqn:Hos; [simpl; by rewrite Hp|].
    rewrite last_cons_cons. destruct (last (o' :: os')) as [o''|]; simpl; [|done].
    destruct (negb _); simpl; [|done]. by rewrite orb_true_r.
  - rewrite He. unfold count_callbacks, settles; simpl.
    destruct reevaluate; simpl.
    + rewrite filter_cons_True by (rewrite He; done). rewrite He. done.
    + rewrite filter_cons_False by (rewrite He; done). rewrite He. done.
Qed.

Lemma pe_rounds_provisional grammar expr feature mapPrefix asFilter cs reevaluate :
  let os := pe_rounds grammar expr feature mapPrefix asFilter cs reevaluate in
  ∀ i o, os !! i = Some o → S i < length os → is_reschedule (pe_effect o) = true.
Proof.
  revert reevaluate. induction cs as [|c cs IH]; intros reevaluate; simpl; [done|].
  intros i o Hi Hlen.
  destruct (pe_effect (parseExpression grammar expr feature mapPrefix asFilter reevaluate c))
    eqn:Hp; simpl in *.
  - destruct i as [|i]; simpl in Hi.
    + injection Hi as <-. by rewrite Hp.
    + apply (IH true i o Hi). lia.
  - lia.
  - lia.
Qed.

Lemma pe_rounds_last grammar expr feature mapPrefix asFilter cs reevaluate :
  let os := pe_rounds grammar expr feature mapPrefix asFilter cs reevaluate in
  ∀ o, last os = Some o → is_reschedule (pe_effect o) = false →
  pe_effect o = if reevaluate || (2 <=? length os) then Callback else NoCallback.
Proof.
  revert reevaluate. induction cs as [|c cs IH]; intros reevaluate; simpl; [done|].
  intros o Hl Hr.
  destruct (pe_effect_cases grammar expr feature mapPrefix asFilter reevaluate c) as [Hr'|He].
  - destruct (pe_effect (parseExpression grammar expr feature mapPrefix asFilter reevaluate c))
      eqn:Hp; try discriminate.
    destruct (pe_rounds grammar expr feature mapPrefix asFilter cs true) as [|o' os'] eqn:Hos.
    + simpl in Hl. injection Hl as <-. by rewrite Hp in Hr.
    + rewrite last_cons_cons in Hl. specialize (IH true o). rewrite Hos in IH.
      simpl in IH |- *. rewrite orb_true_r. by apply IH.
  - rewrite He in Hl |- *.
    destruct reevaluate; simpl in Hl; injection Hl as <-; by rewrite He.
Qed.

Lemma batch_fold_warns grammar feature mapPrefix asFilter (l : list (string * string))
    c res ps w :
  fold_left (batch_step grammar feature mapPrefix asFilter) l (c, res, ps, w)
  = let '(c', res', ps', w') := fold_left (batch_step grammar feature mapPrefix asFilter) l (c, res, ps, []) in
    (c', res', ps', w ++ w').
Proof.
  revert c res ps w. induction l as [|[key expr] l IH]; intros c res ps w; simpl.
  - by rewrite app_nil_r.
  - destruct (run_feed mapPrefix (feed_text grammar feature asFilter expr) c ps) as [[c' ps'] [v|]].
    + rewrite (IH _ _ _ w), (IH _ _ _ []). simpl.
      by destruct (fold_left _ l _) as [[[? ?] ?] ?].
    + rewrite (IH _ _ _ (w ++ _)), (IH _ _ _ (_ :: _)). simpl.
      destruct (fold_left _ l _) as [[[? ?] ?] ?]. by rewrite <- app_assoc.
Qed.

Lemma batch_fold_lookup grammar feature mapPrefix asFilter (l : list (string * string))
    acc n :
  n ∉ l.*1 →
  (fold_left (batch_step grammar feature mapPrefix asFilter) l acc).1.1.2 !! n = acc.1.1.2 !! n.
Proof.
  revert acc. induction l as [|[key expr] l IH]; intros [[[c res] ps] w] Hn; simpl; [done|].
  simpl in Hn. apply not_elem_of_cons in Hn as [Hne Hn].
  destruct (run_feed mapPrefix (feed_text grammar feature asFilter expr) c ps) as [[c' ps'] [v|]];
    rewrite IH by done; simpl; [by rewrite lookup_insert_ne|done].
Qed.

Lemma no_char_append_first (a b : string) :
  no_char nl a = true →
  replace_first_nl (a +:+ String nl b) = (a +:+ String " "%char b)%string.
Proof.
  induction a as [|x a IH]; simpl; intros H; [done|].
  apply andb_prop in H as [Hx H]. destruct (Ascii.eqb x nl); [discriminate|].
  by rewrite IH.
Qed.

Lemma replace_first_nl_id (a : string) : no_char nl a = true → replace_first_nl a = a.
Proof.
  induction a as [|x a IH]; simpl; intros H; [done|].
  apply andb_prop in H as [Hx H]. destruct (Ascii.eqb x nl); [discriminate|].
  by rewrite IH.
Qed.

(** * Claims *)

(** C1 (single dispatch).  A segment between two consecutive [clear()]
    calls starts right after a [clear()] (at load, [init_state] is
    [clear init_state]).  Whatever state the cache was in, after a
    [clear()] and along any sequence of events without a further [clear()]
    (gets from any number of interleaved evaluation rounds, callbacks
    firing), [getFeatures] is called at most once for a given
    [(dataset, attr, value)] triple. *)
Theorem single_dispatch_between_clears (c : cache_state) (evs : list event)
    (dataset attr : string) (value : jsvalue) :
  no_clear evs →
  length (filter (λ d, d = (dataset, attr, value)) (run (clear c) evs).2) ≤ 1.
Proof.
  intros Hnc. etransitivity; [apply count_triple_le_key|].
  apply (run_count_key (clear c) evs (dkey (dataset, attr, value)) Hnc).
  apply clear_unknown.
Qed.

Lemma single_dispatch_between_clears_witness :
  no_clear [EGet "parcels" "id" (VStr "42"); EGet "parcels" "id" (VStr "42");
            EFire 0 (Some [parcel42]); EGet "parcels" "id" (VStr "42")] ∧
  length (filter (λ d, d = ("parcels", "id", VStr "42"))
    (run (clear init_state)
       [EGet "parcels" "id" (VStr "42"); EGet "parcels" "id" (VStr "42");
        EFire 0 (Some [parcel42]); EGet "parcels" "id" (VStr "42")]).2) ≤ 1.
Proof.
  assert (Hnc : no_clear [EGet "parcels" "id" (VStr "42"); EGet "parcels" "id" (VStr "42");
            EFire 0 (Some [parcel42]); EGet "parcels" "id" (VStr "42")]).
  { repeat constructor; discriminate. }
  split; [exact Hnc|]. exact (single_dispatch_between_clears init_state _ _ _ _ Hnc).
Defined.

(** C3 (pending key).  A [get] for a key that is pending and not yet in the
    store returns [null], leaves the cache as it is, and pushes no promise
    onto the caller's list. *)
Theorem get_pending_returns_null (c : cache_state) (dataset attr : string) (value : jsvalue) :
  store c !! cache_key dataset attr value = None →
  cache_key dataset attr value ∈ requests c →
  get dataset attr value c = (VNull, c, None).
Proof. intros Hs Hr. unfold get. rewrite Hs. by case_decide. Qed.

Lemma get_pending_returns_null_witness :
  let c := (run init_state [EGet "parcels" "id" (VStr "42")]).1 in
  store c !! cache_key "parcels" "id" (VStr "42") = None ∧
  cache_key "parcels" "id" (VStr "42") ∈ requests c ∧
  get "parcels" "id" (VStr "42") c = (VNull, c, None).
Proof.
  cbv zeta.
  assert (H1 : store (run init_state [EGet "parcels" "id" (VStr "42")]).1
                 !! cache_key "parcels" "id" (VStr "42") = None) by reflexivity.
  assert (H2 : cache_key "parcels" "id" (VStr "42")
                 ∈ requests (run init_state [EGet "parcels" "id" (VStr "42")]).1)
    by (simpl; set_solver).
  split; [exact H1|]. split; [exact H2|].
  exact (get_pending_returns_null _ _ _ _ H1 H2).
Defined.

(** C4 (cache monotonicity).  In any state the program reaches, once the
    store holds [x] under a key (so [get] returns [x] for it), every event
    sequence without [clear()] keeps [x] there and [get] keeps returning
    [x] without touching the cache. *)
Theorem cache_monotone (evs0 evs : list event) (dataset attr : string) (value : jsvalue)
    (x : jsvalue) :
  let c := (run init_state evs0).1 in
  store c !! cache_key dataset attr value = Some x →
  no_clear evs →
  store (run c evs).1 !! cache_key dataset attr value = Some x ∧
  get dataset attr value (run c evs).1 = (x, (run c evs).1, None).
Proof.
  intros c Hx Hnc.
  assert (Hk : store (run c evs).1 !! cache_key dataset attr value = Some x).
  { apply run_store_kept; [apply run_wf, init_wf|done|done]. }
  split; [done|]. by apply get_resolved.
Qed.

Lemma cache_monotone_witness :
  store (run init_state [EGet "parcels" "id" (VStr "42"); EFire 0 (Some [parcel42])]).1
    !! cache_key "parcels" "id" (VStr "42") = Some parcel42 ∧
  no_clear [EGet "parcels" "id" (VStr "42"); EFire 1 None; EGet "parcels" "id" (VStr "43")] ∧
  get "parcels" "id" (VStr "42")
    (run (run init_state [EGet "parcels" "id" (VStr "42"); EFire 0 (Some [parcel42])]).1
       [EGet "parcels" "id" (VStr "42"); EFire 1 None; EGet "parcels" "id" (VStr "43")]).1
  = (parcel42,
     (run (run init_state [EGet "parcels" "id" (VStr "42"); EFire 0 (Some [parcel42])]).1
        [EGet "parcels" "id" (VStr "42"); EFire 1 None; EGet "parcels" "id" (VStr "43")]).1, None).
Proof.
  assert (H1 : store (run init_state [EGet "parcels" "id" (VStr "42"); EFire 0 (Some [parcel42])]).1
    !! cache_key "parcels" "id" (VStr "42") = Some parcel42) by reflexivity.
  assert (H2 : no_clear [EGet "parcels" "id" (VStr "42"); EFire 1 None; EGet "parcels" "id" (VStr "43")])
    by (repeat constructor; discriminate).
  split; [exact H1|]. split; [exact H2|].
  exact (proj2 (cache_monotone _ _ "parcels" "id" (VStr "42") parcel42 H1 H2)).
Defined.

(** C7 (completion).  When the callback of a dispatched fetch fires while
    its key is pending, the key leaves the pending set and the store holds
    the single feature of the result if there is exactly one, and [null]
    (Absent) if there are none or several; later [get]s for the key return
    that value, [null] for Absent, without dispatching. *)
Theorem completion_stores_outcome (c : cache_state) (id : nat)
    (dataset attr : string) (value : jsvalue) (result : option (list jsvalue)) :
  find_cb id (callbacks c) = Some (cache_key dataset attr value) →
  cache_key dataset attr value ∈ requests c →
  let c' := fire id result c in
  (cache_key dataset attr value ∉ requests c') ∧
  (∀ f, default [] result = [f] →
     store c' !! cache_key dataset attr value = Some f ∧
     get dataset attr value c' = (f, c', None)) ∧
  (length (default [] result) ≠ 1 →
     store c' !! cache_key dataset attr value = Some VNull ∧
     get dataset attr value c' = (VNull, c', None)).
Proof.
  intros Hf Hin c'.
  destruct (fire_pending c id _ result Hf Hin) as [Hs Hr].
  assert (Hk : store c' !! cache_key dataset attr value = Some (fetch_outcome result)).
  { unfold c'. rewrite Hs. apply lookup_insert_eq. }
  split; [unfold c'; rewrite Hr; set_solver|]. split.
  - intros f Hres. unfold fetch_outcome in Hk. rewrite Hres in Hk.
    split; [done|]. by apply get_resolved.
  - intros Hlen. unfold fetch_outcome in Hk.
    destruct (default [] result) as [|f [|g l]]; simpl in Hlen; [|lia|];
      (split; [done|]; by apply get_resolved).
Qed.

Lemma completion_stores_outcome_witness :
  let c := (run init_state [EGet "parcels" "id" (VStr "42")]).1 in
  find_cb 0 (callbacks c) = Some (cache_key "parcels" "id" (VStr "42")) ∧
  cache_key "parcels" "id" (VStr "42") ∈ requests c ∧
  get "parcels" "id" (VStr "42") (fire 0 (Some [parcel42; parcel42]) c)
  = (VNull, fire 0 (Some [parcel42; parcel42]) c, None).
Proof.
  cbv zeta.
  assert (H1 : find_cb 0 (callbacks (run init_state [EGet "parcels" "id" (VStr "42")]).1)
               = Some (cache_key "parcels" "id" (VStr "42"))) by reflexivity.
  assert (H2 : cache_key "parcels" "id" (VStr "42")
                 ∈ requests (run init_state [EGet "parcels" "id" (VStr "42")]).1)
    by (simpl; set_solver).
  split; [exact H1|]. split; [exact H2|].
  refine (proj2 (proj2 (proj2 (completion_stores_outcome _ 0 "parcels" "id" (VStr "42")
                                 (Some [parcel42; parcel42]) H1 H2)) _)).
  simpl. lia.
Defined.

(** C8, as stated: distinct triples never share an entry.  Refuted: the
    key is the colon-joined string, the value converted by [String(value)].
    So [("a:b", "c", "d")] and [("a", "b:c", "d")] share the entry
    ["a:b:c:d"], and the number [42] and the string ["42"] as values share
    the entry ["parcels:id:42"]: in both cases the second [get] is not
    dispatched while the first is pending, and later receives the first
    one's feature. *)
Lemma cache_key_alias_counterexample :
  ("a:b", "c", VStr "d") ≠ ("a", "b:c", VStr "d") ∧
  (run init_state [EGet "a:b" "c" (VStr "d"); EGet "a" "b:c" (VStr "d")]).2
    = [("a:b", "c", VStr "d")] ∧
  get "a" "b:c" (VStr "d") (fire 0 (Some [parcel42]) (run init_state [EGet "a:b" "c" (VStr "d")]).1)
    = (parcel42, fire 0 (Some [parcel42]) (run init_state [EGet "a:b" "c" (VStr "d")]).1, None) ∧
  ("parcels", "id", VNum 42) ≠ ("parcels", "id", VStr "42") ∧
  (run init_state [EGet "parcels" "id" (VNum 42); EGet "parcels" "id" (VStr "42")]).2
    = [("parcels", "id", VNum 42)] ∧
  get "parcels" "id" (VStr "42")
      (fire 0 (Some [parcel42]) (run init_state [EGet "parcels" "id" (VNum 42)]).1)
    = (parcel42, fire 0 (Some [parcel42]) (run init_state [EGet "parcels" "id" (VNum 42)]).1, None).
Proof.
  split; [discriminate|]. split; [vm_compute; reflexivity|]. split; [vm_compute; reflexivity|].
  split; [discriminate|]. split; vm_compute; reflexivity.
Qed.

(** C8, amended.  Two [get] calls share a cache entry exactly when their
    keys [dataset + ":" + attr + ":" + value] are equal: then they behave
    identically on every cache state, while a [get] with a different key
    does not change whether this key is pending or resolved.  Equal
    triples thus always share; when no dataset or attribute name contains
    [':'], two triples share exactly when their datasets and attributes
    are equal and their values have the same string form. *)
Theorem cache_key_sharing (ds a : string) (v : jsvalue) (ds' a' : string) (v' : jsvalue) :
  (cache_key ds a v = cache_key ds' a' v' → ∀ c, get ds a v c = get ds' a' v' c) ∧
  (cache_key ds a v ≠ cache_key ds' a' v' →
     ∀ c, known (get ds a v c).1.2 (cache_key ds' a' v') ↔ known c (cache_key ds' a' v')) ∧
  (no_colon ds = true → no_colon a = true → no_colon ds' = true → no_colon a' = true →
     cache_key ds a v = cache_key ds' a' v' ↔ (ds, a, js_string v) = (ds', a', js_string v')).
Proof.
  split; [|split].
  - intros Heq c. unfold get. by rewrite Heq.
  - intros Hne c. unfold get, known.
    destruct (store c !! cache_key ds a v); [done|]. case_decide; [done|]. simpl.
    set_solver.
  - intros H1 H2 H3 H4. split; [by apply cache_key_inj|].
    intros Heq. injection Heq as -> -> Hv. unfold cache_key. by rewrite Hv.
Qed.

Lemma cache_key_sharing_witness :
  get "parcels" "id" (VNum 42) init_state = get "parcels" "id" (VStr "42") init_state ∧
  (known (get "parcels" "id" (VStr "42") init_state).1.2 (cache_key "parcels" "id" (VStr "43"))
     ↔ known init_state (cache_key "parcels" "id" (VStr "43"))) ∧
  (cache_key "parcels" "id" (VNum 42) = cache_key "parcels" "id" (VStr "42")
     ↔ ("parcels", "id", js_string (VNum 42)) = ("parcels", "id", js_string (VStr "42"))).
Proof.
  destruct (cache_key_sharing "parcels" "id" (VNum 42) "parcels" "id" (VStr "42")) as [Ha [_ Hc]].
  destruct (cache_key_sharing "parcels" "id" (VStr "42") "parcels" "id" (VStr "43")) as [_ [Hb _]].
  split; [apply Ha; vm_compute; reflexivity|]. split.
  - apply Hb. vm_compute. discriminate.
  - apply Hc; reflexivity.
Defined.

(** C10, as stated: a completion still in flight at [clear()] writes
    nothing into the new store.  Refuted: callback 0 is handed out before
    the [clear()]; the key is requested again after it, and when the old
    callback fires it finds the key in the new [requests], stores its
    result and removes the key from the new pending set. *)
Lemma stale_completion_counterexample :
  let c := (run init_state [EGet "parcels" "id" (VStr "42"); EClear; EGet "parcels" "id" (VStr "42")]).1 in
  find_cb 0 (callbacks c) = Some (cache_key "parcels" "id" (VStr "42")) ∧
  store c !! cache_key "parcels" "id" (VStr "42") = None ∧
  store (fire 0 (Some [parcel42]) c) !! cache_key "parcels" "id" (VStr "42") = Some parcel42 ∧
  cache_key "parcels" "id" (VStr "42") ∈ requests c ∧
  cache_key "parcels" "id" (VStr "42") ∉ requests (fire 0 (Some [parcel42]) c).
Proof.
  cbv zeta. split; [reflexivity|]. split; [reflexivity|]. split; [reflexivity|].
  split; refine (bool_decide_unpack _ _); vm_compute; reflexivity.
Qed.

(** C10, amended.  After a [clear()], a callback of [getFeatures] that
    fires for key [k] resolves its promise in every case.  As long as no
    [get] has requested [k] again since the [clear()], it writes nothing
    into the new store and leaves the new pending set untouched; if [k]
    has been requested again and is still pending, it stores its own
    outcome under [k] and removes [k] from the new pending set. *)
Theorem stale_completion (c : cache_state) (evs : list event) (id : nat) (k : string)
    (result : option (list jsvalue)) :
  let c' := (run (clear c) evs).1 in
  find_cb id (callbacks c') = Some k →
  find_cb id (callbacks (fire id result c')) = None ∧
  (Forall (λ e, ∀ ds a v, e = EGet ds a v → cache_key ds a v ≠ k) evs →
     store (fire id result c') = store c' ∧ requests (fire id result c') = requests c') ∧
  (k ∈ requests c' →
     store (fire id result c') = <[k := fetch_outcome result]> (store c') ∧
     requests (fire id result c') = requests c' ∖ {[k]}).
Proof.
  intros c' Hf. split; [apply fire_resolves|]. split.
  - intros Hev.
    assert (Hk : k ∉ requests c').
    { apply not_requested_run; [done|]. unfold ExpressionFeatureCache.clear; simpl. set_solver. }
    unfold fire. rewrite Hf. unfold on_result; simpl. by case_decide.
  - intros Hin. by apply fire_pending.
Qed.

Lemma stale_completion_witness :
  let c' := (run (clear (run init_state [EGet "parcels" "id" (VStr "42")]).1)
               [EGet "parcels" "id" (VStr "43")]).1 in
  find_cb 0 (callbacks c') = Some (cache_key "parcels" "id" (VStr "42")) ∧
  store (fire 0 (Some [parcel42]) c') = store c'.
Proof.
  cbv zeta.
  assert (Hf : find_cb 0 (callbacks (run (clear (run init_state [EGet "parcels" "id" (VStr "42")]).1)
               [EGet "parcels" "id" (VStr "43")]).1) = Some (cache_key "parcels" "id" (VStr "42")))
    by reflexivity.
  split; [exact Hf|].
  refine (proj1 (proj1 (proj2 (stale_completion _ _ 0 _ (Some [parcel42]) Hf)) _)).
  repeat constructor. intros ds a v Heq. injection Heq as <- <- <-. discriminate.
Defined.

(** C2, on scenario E of the spec: the batch
    [{x: "1+1", y: "getFeature('parcels','id','42').area"}] on an empty
    cache.  Whatever depth the synchronous nested call reaches, the promise
    of [parseExpressionsAsync] resolves with the first pass's provisional
    mapping [{x: 2, y: null}], whereas the pass run once the fetch has
    delivered the parcel gives [y = 150]. *)
Theorem parseExpressionsAsync_scenario_e (fuel : nat) :
  (parseExpressionsAsync fuel scenario_grammar
     [("x", "1+1"); ("y", "getFeature('parcels','id','42').area")] VNull "" false
     init_state).2
  = <["y" := VNull]> (<["x" := VNum 2]> ∅) ∧
  (batch_pass scenario_grammar
     [("x", "1+1"); ("y", "getFeature('parcels','id','42').area")] VNull "" false
     (fire 0 (Some [parcel42])
        (batch_pass scenario_grammar
           [("x", "1+1"); ("y", "getFeature('parcels','id','42').area")] VNull "" false
           init_state).1.1.1)).1.1.2
  = <["y" := VNum 150]> (<["x" := VNum 2]> ∅).
Proof.
  rewrite parseExpressionsAsync_resolves_first_pass. split; vm_compute; reflexivity.
Qed.

(** C9.  [expr.replace(/\n/, ' ')] replaces the first line feed only: with
    [a] free of line feeds, [a + "\n" + b] becomes [a + " " + b], [b] (and
    any line feed in it) unchanged, and that is the text the grammar is
    fed; [feed_text] is the call both [parseExpression] and
    [parseExpressionsAsync] make.  A text without line feed is fed as is. *)
Theorem only_first_newline_replaced (grammar : grammar_t) (feature : jsvalue)
    (asFilter : bool) (a b : string) :
  no_char nl a = true →
  replace_first_nl (a +:+ String nl b) = (a +:+ String " "%char b)%string ∧
  feed_text grammar feature asFilter (a +:+ String nl b)
  = grammar feature asFilter (a +:+ String " "%char b)%string ∧
  feed_text grammar feature asFilter a = grammar feature asFilter a.
Proof.
  intros Ha. unfold feed_text.
  rewrite no_char_append_first by done. rewrite replace_first_nl_id by done. done.
Qed.

Lemma only_first_newline_replaced_witness :
  no_char nl "x" = true ∧
  replace_first_nl ("x" +:+ String nl (String "y"%char (String nl "z")))
  = ("x" +:+ String " "%char (String "y"%char (String nl "z")))%string.
Proof.
  assert (H : no_char nl "x" = true) by reflexivity.
  split; [exact H|].
  exact (proj1 (only_first_newline_replaced scenario_grammar VNull false "x" _ H)).
Defined.

(** C6.  Over the rounds of one top-level [parseExpression] call (the first
    one with [reevaluate = false], each later one started after
    [Promise.all] of the previous round's promises, on whatever cache state
    the event loop has produced by then): every round but the last has
    pending promises; [reevaluateCallback] is invoked once if the call
    settles after at least one provisional round, and never otherwise; it
    fires in the settling round; if the first round settles, it is not
    invoked and that round returns the value. *)
Theorem reevaluate_callback_once (grammar : grammar_t) (expr : string)
    (feature : jsvalue) (mapPrefix : string) (asFilter : bool) (cs : list cache_state) :
  let os := pe_rounds grammar expr feature mapPrefix asFilter cs false in
  count_callbacks os = (if settles os && (2 <=? length os) then 1 else 0) ∧
  (∀ i o, os !! i = Some o → S i < length os → is_reschedule (pe_effect o) = true) ∧
  (∀ o, last os = Some o → is_reschedule (pe_effect o) = false →
     pe_effect o = if 2 <=? length os then Callback else NoCallback).
Proof.
  intros os. split; [|split].
  - apply (pe_rounds_count grammar expr feature mapPrefix asFilter cs false).
  - apply (pe_rounds_provisional grammar expr feature mapPrefix asFilter cs false).
  - apply (pe_rounds_last grammar expr feature mapPrefix asFilter cs false).
Qed.

(** C5.  With the grammar modelled from the spec (a text that does not
    parse throws before any action runs), a text that fails to parse makes
    the top-level [parseExpression] call a single round: the cache is left
    as it was, a warning is logged, the call returns [null] ([[null]] in
    filter mode), and neither a new round nor [reevaluateCallback] follows.
    In a batch, the failing entry leaves the cache, the promises and the
    mapping exactly as the batch without it would, its name is absent from
    the mapping, a warning is logged, and the returned promise resolves
    with the same mapping as for the batch without it. *)
Theorem parse_failure_fatal {Tree : Type} (parse : string → option Tree)
    (evaluate : Tree → jsvalue → bool → feed_run) (expr : string) (feature : jsvalue)
    (mapPrefix : string) (asFilter : bool) (c : cache_state) (cs : list cache_state)
    (fuel : nat) (l1 l2 : list (string * string)) (name : string) :
  parse (replace_first_nl expr) = None →
  name ∉ (l1 ++ l2).*1 →
  pe_rounds (spec_grammar parse evaluate) expr feature mapPrefix asFilter (c :: cs) false
  = [mkPeOut c [warning expr] (if asFilter then VArr [VNull] else VNull) NoCallback] ∧
  (let '(c1, res1, ps1, w1) :=
     batch_pass (spec_grammar parse evaluate) (l1 ++ (name, expr) :: l2) feature mapPrefix asFilter c in
   let '(c2, res2, ps2, w2) :=
     batch_pass (spec_grammar parse evaluate) (l1 ++ l2) feature mapPrefix asFilter c in
   c1 = c2 ∧ res1 = res2 ∧ ps1 = ps2 ∧ warning expr ∈ w1 ∧ res1 !! name = None) ∧
  (parseExpressionsAsync fuel (spec_grammar parse evaluate) (l1 ++ (name, expr) :: l2)
     feature mapPrefix asFilter c).2
  = (parseExpressionsAsync fuel (spec_grammar parse evaluate) (l1 ++ l2)
       feature mapPrefix asFilter c).2.
Proof.
  intros Hp Hn.
  set (G := spec_grammar parse evaluate).
  assert (Hfeed : feed_text G feature asFilter expr = FThrow).
  { unfold feed_text, G, spec_grammar. by rewrite Hp. }
  assert (Hbatch :
    let '(c1, res1, ps1, w1) := batch_pass G (l1 ++ (name, expr) :: l2) feature mapPrefix asFilter c in
    let '(c2, res2, ps2, w2) := batch_pass G (l1 ++ l2) feature mapPrefix asFilter c in
    c1 = c2 ∧ res1 = res2 ∧ ps1 = ps2 ∧ warning expr ∈ w1 ∧ res1 !! name = None).
  { rewrite fmap_app in Hn. apply not_elem_of_app in Hn as [Hn1 Hn2].
    unfold batch_pass. rewrite !fold_left_app.
    pose proof (batch_fold_lookup G feature mapPrefix asFilter l1 (c, ∅, [], []) name Hn1) as Hl1.
    destruct (fold_left (batch_step G feature mapPrefix asFilter) l1 (c, ∅, [], []))
      as [[[c1 r1] p1] w1]. simpl in Hl1. rewrite lookup_empty in Hl1. simpl.
    rewrite Hfeed. simpl.
    pose proof (batch_fold_lookup G feature mapPrefix asFilter l2 (c1, r1, p1, w1 ++ [warning expr])
                  name Hn2) as Hl2.
    rewrite (batch_fold_warns _ _ _ _ l2 c1 r1 p1 (w1 ++ _)) in Hl2 |- *.
    rewrite (batch_fold_warns _ _ _ _ l2 c1 r1 p1 w1).
    destruct (fold_left (batch_step G feature mapPrefix asFilter) l2 (c1, r1, p1, []))
      as [[[c2 r2] p2] w2]. simpl in Hl2.
    repeat split; [|by rewrite Hl2]. set_solver. }
  split; [|split; [exact Hbatch|]].
  - simpl. unfold parseExpression. rewrite Hfeed. simpl. done.
  - rewrite !parseExpressionsAsync_resolves_first_pass.
    destruct (batch_pass G (l1 ++ (name, expr) :: l2) feature mapPrefix asFilter c)
      as [[[c1 res1] ps1] w1].
    destruct (batch_pass G (l1 ++ l2) feature mapPrefix asFilter c) as [[[c2 res2] ps2] w2].
    simpl. by destruct Hbatch as (_ & -> & _).
Qed.

Lemma parse_failure_fatal_witness :
  (λ t : string, if decide (t = "1+1") then Some tt else None) (replace_first_nl "{a +") = None ∧
  ("y" ∉ ([("x", "1+1")] ++ []).*1) ∧
  pe_rounds (spec_grammar (λ t : string, if decide (t = "1+1") then Some tt else None)
               (λ _ _ _, FDone (VNum 2))) "{a +" VNull "" true [init_state] false
  = [mkPeOut init_state [warning "{a +"] (VArr [VNull]) NoCallback].
Proof.
  assert (Hp : (λ t : string, if decide (t = "1+1") then Some tt else None)
                 (replace_first_nl "{a +") = None) by reflexivity.
  assert (Hn : "y" ∉ ([("x", "1+1")] ++ []).*1)
    by (refine (bool_decide_unpack _ _); vm_compute; reflexivity).
  split; [exact Hp|]. split; [exact Hn|].
  exact (proj1 (parse_failure_fatal _ (λ _ _ _, FDone (VNum 2)) "{a +" VNull "" true
                  init_state [] 0 [("x", "1+1")] [] "y" Hp Hn)).
Defined.

(** * Further properties of ExpressionParser.js *)

Lemma find_cb_app_Some id l k k' n :
  find_cb id l = Some k → find_cb id (l ++ [(n, k')]) = Some k.
Proof.
  induction l as [|[i x] l IH]; simpl; [done|].
  destruct (Nat.eqb i id); [done|]. exact IH.
Qed.

Lemma find_cb_app_fresh l n k :
  n ∉ l.*1 → find_cb n (l ++ [(n, k)]) = Some k.
Proof.
  induction l as [|[i x] l IH]; simpl; intros Hn.
  - by rewrite Nat.eqb_refl.
  - apply not_elem_of_cons in Hn as [Hne Hn].
    destruct (Nat.eqb_spec i n); [congruence|]. by apply IH.
Qed.

Lemma find_cb_In id l k : find_cb id l = Some k → (id, k) ∈ l.
Proof.
  induction l as [|[i x] l IH]; simpl; [done|].
  destruct (Nat.eqb_spec i id) as [->|]; intros H.
  - injection H as ->. left.
  - right. by apply IH.
Qed.

Lemma find_cb_unique id l k k' :
  NoDup l.*1 → find_cb id l = Some k → (id, k') ∈ l → k' = k.
Proof.
  induction l as [|[i x] l IH]; simpl; [done|].
  intros Hnd Hf Hin. apply NoDup_cons in Hnd as [Hni Hnd].
  apply elem_of_cons in Hin as [Hin|Hin].
  - injection Hin as -> ->. by rewrite Nat.eqb_refl in Hf; injection Hf.
  - destruct (Nat.eqb_spec i id) as [->|].
    + exfalso. apply Hni. apply list_elem_of_fmap. by exists (id, k').
    + by apply (IH Hnd).
Qed.

Lemma NoDup_fst_filter (P : nat * string → Prop) `{∀ x, Decision (P x)} l :
  NoDup l.*1 → NoDup (filter P l).*1.
Proof.
  induction l as [|[i x] l IH]; simpl; [done|].
  intros Hnd. apply NoDup_cons in Hnd as [Hni Hnd]. rewrite filter_cons.
  case_decide; simpl; [|by apply IH].
  constructor; [|by apply IH].
  intros Hin. apply Hni. apply list_elem_of_fmap in Hin as [[j y] [-> Hy]].
  apply list_elem_of_filter in Hy as [_ Hy]. apply list_elem_of_fmap. by exists (j, y).
Qed.

Lemma step_ids_fresh c e : ids_fresh c → ids_fresh (step c e).1.
Proof.
  intros [Hlt Hnd]. destruct e as [ds a v|id r|]; simpl.
  - unfold get. destruct (store c !! cache_key ds a v); [done|].
    case_decide; [done|]. simpl. split.
    + intros i k Hin. apply elem_of_app in Hin as [Hin|Hin].
      * specialize (Hlt i k Hin). simpl. lia.
      * apply list_elem_of_singleton in Hin. injection Hin as -> ->. simpl. lia.
    + cbn [callbacks next_cb]. rewrite fmap_app. simpl. apply NoDup_app. split; [done|]. split.
      * intros i Hi Hi'. apply list_elem_of_singleton in Hi'. subst i.
        apply list_elem_of_fmap in Hi as [[j y] [Hj Hy]]. simpl in Hj. subst j.
        specialize (Hlt _ _ Hy). lia.
      * apply NoDup_singleton.
  - unfold fire. destruct (find_cb id (callbacks c)) as [key|]; [|by split].
    unfold on_result. case_decide; simpl; split.
    + intros i k Hin. apply list_elem_of_filter in Hin as [_ Hin]. by apply (Hlt i k).
    + by apply NoDup_fst_filter.
    + intros i k Hin. apply list_elem_of_filter in Hin as [_ Hin]. by apply (Hlt i k).
    + by apply NoDup_fst_filter.
  - by split.
Qed.

Lemma step_owed c e : ids_fresh c → owed c → owed (step c e).1.
Proof.
  intros [Hlt Hnd] Ho. destruct e as [ds a v|id r|]; simpl.
  - unfold get. destruct (store c !! cache_key ds a v); [done|].
    case_decide; [done|]. simpl. intros k Hk.
    apply elem_of_union in Hk as [Hk|Hk].
    + apply elem_of_singleton in Hk as ->. exists (next_cb c). set_solver.
    + destruct (Ho k Hk) as [i Hi]. exists i. set_solver.
  - unfold fire. destruct (find_cb id (callbacks c)) as [key|] eqn:Hf; [|done].
    assert (Hother : ∀ k, k ≠ key → k ∈ requests c →
              ∃ i, (i, k) ∈ filter (λ p : nat * string, p.1 ≠ id) (callbacks c)).
    { intros k Hne Hk. destruct (Ho k Hk) as [i Hi]. exists i.
      apply list_elem_of_filter. split; [|done]. simpl. intros ->.
      apply Hne. by apply (find_cb_unique id (callbacks c)). }
    unfold on_result. case_decide as Hkey; simpl; intros k Hk.
    + apply elem_of_difference in Hk as [Hk Hne]. apply Hother; set_solver.
    + apply Hother; [|done]. intros ->. done.
  - intros k Hk. simpl in Hk. set_solver.
Qed.

Lemma run_invariants c evs :
  wf c → ids_fresh c → owed c →
  wf (run c evs).1 ∧ ids_fresh (run c evs).1 ∧ owed (run c evs).1.
Proof.
  revert c. induction evs as [|e evs IH]; intros c Hw Hi Ho; simpl; [done|].
  destruct (step c e) as [c1 d1] eqn:Hs. destruct (run c1 evs) as [c2 d2] eqn:Hr.
  simpl. change c2 with (c2, d2).1. rewrite <- Hr.
  apply IH; change c1 with (c1, d1).1; rewrite <- Hs;
    [by apply step_wf|by apply step_ids_fresh|by apply step_owed].
Qed.

Lemma init_invariants : wf init_state ∧ ids_fresh init_state ∧ owed init_state.
Proof.
  split; [apply init_wf|]. split; [split; [intros i k Hin; simpl in Hin; set_solver|constructor]|].
  intros k Hk. simpl in Hk. set_solver.
Qed.

Lemma run_feed_store mapPrefix p c ps :
  store (run_feed mapPrefix p c ps).1.1 = store c.
Proof.
  revert c ps. induction p as [| |l a v k IH]; intros c ps; simpl; try done.
  unfold get. destruct (store c !! cache_key (mapPrefix +:+ l) a v); [apply IH|].
  case_decide; [apply IH|]. rewrite IH. done.
Qed.

Lemma run_feed_requests mapPrefix p c ps :
  requests c ⊆ requests (run_feed mapPrefix p c ps).1.1.
Proof.
  revert c ps. induction p as [| |l a v k IH]; intros c ps; simpl; try done.
  unfold get. destruct (store c !! cache_key (mapPrefix +:+ l) a v); [apply IH|].
  case_decide; [apply IH|]. etransitivity; [|apply IH]. simpl. set_solver.
Qed.

Lemma run_feed_rerun mapPrefix p c ps c' ps' r c2 qs :
  run_feed mapPrefix p c ps = (c', ps', r) →
  store c2 = store c → requests c' ⊆ requests c2 →
  run_feed mapPrefix p c2 qs = (c2, qs, r).
Proof.
  revert c ps c2 qs. induction p as [|v0|l a v k IH]; intros c ps c2 qs Hrun Hst Hrq;
    simpl in *; try congruence.
  pose proof (run_feed_requests mapPrefix (FGetFeature l a v k) c ps) as Hm.
  simpl in Hm. rewrite Hrun in Hm. simpl in Hm.
  unfold get in *. rewrite Hst.
  destruct (store c !! cache_key (mapPrefix +:+ l) a v) as [x|] eqn:Hs.
  - simpl in *. rewrite app_nil_r. eapply IH; eauto.
  - destruct (decide (cache_key (mapPrefix +:+ l) a v ∈ requests c)) as [Hin|Hin].
    + rewrite decide_True by set_solver. simpl in *. rewrite app_nil_r. eapply IH; eauto.
    + rewrite decide_True.
      * simpl. rewrite app_nil_r. eapply IH; [exact Hrun| |exact Hrq]. done.
      * assert (Hk : cache_key (mapPrefix +:+ l) a v ∈ requests c').
        { pose proof (run_feed_requests mapPrefix (k VNull)
            {| store := store c; requests := {[cache_key (mapPrefix +:+ l) a v]} ∪ requests c;
               callbacks := callbacks c ++ [(next_cb c, cache_key (mapPrefix +:+ l) a v)];
               next_cb := S (next_cb c) |} (ps ++ option_list (Some (next_cb c)))) as H2.
          rewrite Hrun in H2. simpl in H2. set_solver. }
        set_solver.
Qed.

Lemma find_cb_fmap_app (l : list (nat * string)) (ps : list nat) n k :
  (∀ id, id ∈ ps → is_Some (find_cb id l)) →
  (λ id, find_cb id (l ++ [(n, k)])) <$> ps = (λ id, find_cb id l) <$> ps.
Proof.
  induction ps as [|id ps IH]; intros H; simpl; [done|].
  destruct (H id (list_elem_of_here _ _)) as [x Hx].
  rewrite (find_cb_app_Some _ _ x), Hx by done. f_equal.
  apply IH. intros id' Hid'. apply H. by right.
Qed.

Lemma run_cons_fst c e evs : (run c (e :: evs)).1 = (run (step c e).1 evs).1.
Proof.
  cbn [run]. destruct (step c e) as [c1 d1]. cbn [fst]. destruct (run c1 evs) as [c2 d2]. done.
Qed.

Lemma run_app_fst c evs1 evs2 : (run c (evs1 ++ evs2)).1 = (run (run c evs1).1 evs2).1.
Proof.
  revert c. induction evs1 as [|e evs1 IH]; intros c; [done|].
  rewrite <- app_comm_cons, !run_cons_fst. apply IH.
Qed.

(** The cache state a run leaves is the one the sequence of its
    [getFeature] calls leaves. *)
Lemma run_feed_run mapPrefix p c ps :
  ∃ evs, (run c evs).1 = (run_feed mapPrefix p c ps).1.1.
Proof.
  revert c ps. induction p as [| |l a v k IH]; intros c ps; simpl.
  - by exists [].
  - by exists [].
  - destruct (get (mapPrefix +:+ l) a v c) as [[x c'] pr] eqn:Hg.
    destruct (IH x c' (ps ++ option_list pr)) as [evs Hevs].
    exists (EGet (mapPrefix +:+ l) a v :: evs). rewrite run_cons_fst. simpl. rewrite Hg. done.
Qed.

Lemma run_feed_promises_ok mapPrefix p c ps :
  promises_ok c ps →
  promises_ok (run_feed mapPrefix p c ps).1.1 (run_feed mapPrefix p c ps).1.2.
Proof.
  revert c ps. induction p as [| |l a v k IH]; intros c ps Hok; simpl; try done.
  unfold get. set (key := cache_key (mapPrefix +:+ l) a v).
  destruct (store c !! key) eqn:Hst; [simpl; rewrite app_nil_r; by apply IH|].
  case_decide as Hin; [simpl; rewrite app_nil_r; by apply IH|].
  apply IH. destruct Hok as [[Hlt Hnd] [Hkeys Hps]].
  assert (Hfresh : next_cb c ∉ (callbacks c).*1).
  { intros Hi. apply list_elem_of_fmap in Hi as [[j y] [Hj Hy]]. simpl in Hj. subst j.
    specialize (Hlt _ _ Hy). lia. }
  assert (Hsome : ∀ id, id ∈ ps → is_Some (find_cb id (callbacks c))).
  { intros id Hid. destruct (Hps id Hid) as [k' [Hk' _]]. by exists k'. }
  split; [|split].
  - pose proof (step_ids_fresh c (EGet (mapPrefix +:+ l) a v) (conj Hlt Hnd)) as Hs.
    simpl in Hs. unfold get in Hs. fold key in Hs.
    rewrite Hst, decide_False in Hs by done. exact Hs.
  - unfold promise_keys. simpl. rewrite fmap_app, find_cb_fmap_app by done.
    simpl. rewrite find_cb_app_fresh by done.
    apply NoDup_app. split; [exact Hkeys|]. split; [|apply NoDup_singleton].
    intros o Ho Ho'. apply list_elem_of_singleton in Ho'. subst o.
    apply list_elem_of_fmap in Ho as [id [Hid Hmem]].
    destruct (Hps id Hmem) as [k' [Hk' Hk'r]]. rewrite Hk' in Hid. injection Hid as ->.
    done.
  - intros id Hid. simpl. apply elem_of_app in Hid as [Hid|Hid].
    + destruct (Hps id Hid) as [k' [Hk' Hk'r]]. exists k'.
      split; [by apply find_cb_app_Some|set_solver].
    + apply list_elem_of_singleton in Hid. subst id. exists key.
      split; [by apply find_cb_app_fresh|set_solver].
Qed.

Section BatchFold.
Context (grammar : grammar_t) (feature : jsvalue) (mapPrefix : string) (asFilter : bool).

Lemma batch_fold_preserve (Q : cache_state → list nat → Prop) (l : list (string * string)) acc :
  (∀ p c ps, Q c ps → Q (run_feed mapPrefix p c ps).1.1 (run_feed mapPrefix p c ps).1.2) →
  Q acc.1.1.1 acc.1.2 →
  Q (fold_left (batch_step grammar feature mapPrefix asFilter) l acc).1.1.1
    (fold_left (batch_step grammar feature mapPrefix asFilter) l acc).1.2.
Proof.
  intros HQ. revert acc. induction l as [|[key expr] l IH]; intros [[[c res] ps] w] Hacc;
    simpl; [done|].
  pose proof (HQ (feed_text grammar feature asFilter expr) c ps Hacc) as H1.
  destruct (run_feed mapPrefix (feed_text grammar feature asFilter expr) c ps)
    as [[c' ps'] [v|]]; by apply IH.
Qed.

Lemma batch_fold_rerun (l : list (string * string)) cA res ps w c1 res' ps' w' c2 qs :
  fold_left (batch_step grammar feature mapPrefix asFilter) l (cA, res, ps, w) = (c1, res', ps', w') →
  store c2 = store cA → requests c1 ⊆ requests c2 →
  fold_left (batch_step grammar feature mapPrefix asFilter) l (c2, res, qs, w) = (c2, res', qs, w').
Proof.
  revert cA res ps w c2 qs. induction l as [|[key expr] l IH];
    intros cA res ps w c2 qs Hf Hst Hrq; simpl in *; [congruence|].
  destruct (run_feed mapPrefix (feed_text grammar feature asFilter expr) cA ps)
    as [[cB psB] r] eqn:Hrun.
  assert (HB : requests cB ⊆ requests c1).
  { pose proof (batch_fold_preserve (λ c _, requests cB ⊆ requests c) l
      (cB, match r with Some v => <[key:=v]> res | None => res end, psB,
       match r with Some _ => w | None => w ++ [warning expr] end)) as Hm.
    simpl in Hm. destruct r; rewrite Hf in Hm; apply Hm; try done;
      intros p c ps0 Hc; (etransitivity; [exact Hc|apply run_feed_requests]). }
  assert (HsB : store cB = store cA).
  { pose proof (run_feed_store mapPrefix (feed_text grammar feature asFilter expr) cA ps) as Hs.
    by rewrite Hrun in Hs. }
  rewrite (run_feed_rerun _ _ _ _ _ _ _ c2 qs Hrun) by (congruence || set_solver).
  destruct r as [v|]; eapply IH; eauto; congruence.
Qed.

End BatchFold.

Lemma pe_state_run_feed grammar expr feature mapPrefix asFilter reevaluate c :
  pe_state (parseExpression grammar expr feature mapPrefix asFilter reevaluate c)
  = (run_feed mapPrefix (feed_text grammar feature asFilter expr) c []).1.1.
Proof.
  unfold parseExpression.
  destruct (run_feed mapPrefix (feed_text grammar feature asFilter expr) c []) as [[c' [|p ps]] r];
    done.
Qed.

Lemma batch_pass_rerun grammar expressions feature mapPrefix asFilter c c1 res1 ps1 w1 :
  batch_pass grammar expressions feature mapPrefix asFilter c = (c1, res1, ps1, w1) →
  batch_pass grammar expressions feature mapPrefix asFilter c1 = (c1, res1, [], w1).
Proof.
  unfold batch_pass. intros Hb. eapply batch_fold_rerun; [exact Hb| |done].
  pose proof (batch_fold_preserve grammar feature mapPrefix asFilter (λ c' _, store c' = store c)
                expressions (c, ∅, [], [])) as Hs.
  rewrite Hb in Hs. simpl in Hs. apply Hs; [|done].
  intros p c' ps Hc. by rewrite run_feed_store.
Qed.

Lemma parseExpressionsAsync_state fuel grammar expressions feature mapPrefix asFilter c :
  (parseExpressionsAsync fuel grammar expressions feature mapPrefix asFilter c).1
  = (batch_pass grammar expressions feature mapPrefix asFilter c).1.1.1.
Proof.
  revert c. induction fuel as [|fuel IH]; intros c; simpl;
    destruct (batch_pass grammar expressions feature mapPrefix asFilter c)
      as [[[c1 res] [|p ps]] w] eqn:Hb; simpl; try done.
  specialize (IH c1).
  destruct (parseExpressionsAsync fuel grammar expressions feature mapPrefix asFilter c1)
    as [c2 res2]. simpl in *. rewrite IH. by rewrite (batch_pass_rerun _ _ _ _ _ _ _ _ _ _ Hb).
Qed.

Lemma step_absent k c e :
  gets_other k e → k ∉ requests c → store c !! k = None →
  (k ∉ requests (step c e).1) ∧ store (step c e).1 !! k = None.
Proof.
  intros Hg Hr Hs. destruct e as [ds a v|id r|]; simpl.
  - specialize (Hg ds a v eq_refl). unfold get.
    destruct (store c !! cache_key ds a v); [done|]. case_decide; [done|]. simpl.
    split; [set_solver|done].
  - unfold fire. destruct (find_cb id (callbacks c)) as [key|]; [|done].
    unfold on_result. case_decide as Hk; simpl; [|done].
    assert (key ≠ k) by (intros ->; done).
    split; [set_solver|by rewrite lookup_insert_ne].
  - unfold ExpressionFeatureCache.clear. simpl. split; [set_solver|done].
Qed.

Lemma run_absent k c evs :
  Forall (gets_other k) evs → k ∉ requests c → store c !! k = None →
  (k ∉ requests (run c evs).1) ∧ store (run c evs).1 !! k = None.
Proof.
  revert c. induction evs as [|e evs IH]; intros c Hf Hr Hs; [done|].
  apply Forall_cons in Hf as [He Hf]. rewrite run_cons_fst.
  destruct (step_absent k c e He Hr Hs). by apply IH.
Qed.

Lemma run_feed_promises_from mapPrefix p c0 c ps :
  promises_from c0 c ps →
  promises_from c0 (run_feed mapPrefix p c ps).1.1 (run_feed mapPrefix p c ps).1.2.
Proof.
  revert c ps. induction p as [| |l a v k IH]; intros c ps Hok; simpl; try done.
  unfold get. set (key := cache_key (mapPrefix +:+ l) a v).
  destruct (store c !! key) eqn:Hst; [simpl; rewrite app_nil_r; by apply IH|].
  case_decide as Hin; [simpl; rewrite app_nil_r; by apply IH|].
  apply IH. destruct Hok as ([Hlt Hnd] & Hrq & Hs & Hps).
  assert (Hfresh : next_cb c ∉ (callbacks c).*1).
  { intros Hi. apply list_elem_of_fmap in Hi as [[j y] [Hj Hy]]. simpl in Hj. subst j.
    specialize (Hlt _ _ Hy). lia. }
  split; [|split; [|split]].
  - pose proof (step_ids_fresh c (EGet (mapPrefix +:+ l) a v) (conj Hlt Hnd)) as Hf.
    simpl in Hf. unfold get in Hf. fold key in Hf.
    rewrite Hst, decide_False in Hf by done. exact Hf.
  - simpl. set_solver.
  - done.
  - intros id Hid. simpl. apply elem_of_app in Hid as [Hid|Hid].
    + destruct (Hps id Hid) as [k' (Hk' & Hk'r & Hk's)]. exists k'.
      split; [by apply find_cb_app_Some|done].
    + apply list_elem_of_singleton in Hid. subst id. exists key.
      split; [by apply find_cb_app_fresh|]. rewrite <- Hs. split; [set_solver|done].
Qed.

Lemma feed_reaches_run mapPrefix p c ps p' c' ps' :
  feed_reaches mapPrefix p c ps p' c' ps' →
  run_feed mapPrefix p c ps = run_feed mapPrefix p' c' ps'.
Proof.
  induction 1 as [|l a v k c ps x c1 pr p' c' ps' Hg _ IH]; [done|].
  simpl. rewrite Hg. exact IH.
Qed.

(** ** Extra properties *)

(** X1: in every state the cache reaches from its initial state, a key
    pending in [requests] is never in [store], and some [getFeatures]
    callback still owed for it carries it. *)
Theorem pending_key_unstored_and_owed evs k :
  k ∈ requests (run init_state evs).1 →
  store (run init_state evs).1 !! k = None ∧
  ∃ i, (i, k) ∈ callbacks (run init_state evs).1.
Proof.
  intros Hk. destruct init_invariants as (Hw & Hi & Ho).
  destruct (run_invariants init_state evs Hw Hi Ho) as (Hw' & _ & Ho').
  split; [by apply Hw'|by apply Ho'].
Qed.

Lemma pending_key_unstored_and_owed_witness :
  cache_key "d" "a" (VStr "v") ∈ requests (run init_state [EGet "d" "a" (VStr "v")]).1 ∧
  store (run init_state [EGet "d" "a" (VStr "v")]).1 !! cache_key "d" "a" (VStr "v") = None ∧
  ∃ i, (i, cache_key "d" "a" (VStr "v")) ∈ callbacks (run init_state [EGet "d" "a" (VStr "v")]).1.
Proof.
  assert (H : cache_key "d" "a" (VStr "v") ∈ requests (run init_state [EGet "d" "a" (VStr "v")]).1)
    by (simpl; set_solver).
  split; [exact H|]. exact (pending_key_unstored_and_owed [EGet "d" "a" (VStr "v")] _ H).
Defined.

(** X2: evaluating expressions never writes [store]: a round of
    [parseExpression] and a whole call of [parseExpressionsAsync] leave it
    as they found it and only add keys to [requests]. *)
Theorem evaluation_never_writes_store grammar expr feature mapPrefix asFilter reevaluate
    expressions fuel c :
  store (pe_state (parseExpression grammar expr feature mapPrefix asFilter reevaluate c)) = store c ∧
  requests c ⊆ requests (pe_state (parseExpression grammar expr feature mapPrefix asFilter reevaluate c)) ∧
  store (parseExpressionsAsync fuel grammar expressions feature mapPrefix asFilter c).1 = store c ∧
  requests c ⊆ requests (parseExpressionsAsync fuel grammar expressions feature mapPrefix asFilter c).1.
Proof.
  rewrite pe_state_run_feed, parseExpressionsAsync_state. unfold batch_pass.
  split; [apply run_feed_store|]. split; [apply run_feed_requests|]. split.
  - apply (batch_fold_preserve grammar feature mapPrefix asFilter (λ c' _, store c' = store c));
      [|done].
    intros p c' ps Hc. by rewrite run_feed_store.
  - apply (batch_fold_preserve grammar feature mapPrefix asFilter (λ c' _, requests c ⊆ requests c'));
      [|done].
    intros p c' ps Hc. etransitivity; [exact Hc|apply run_feed_requests].
Qed.

(** X3: evaluating the same expression again on the cache a round left,
    before any [getFeatures] callback fires, dispatches nothing, leaves the
    cache as it is, warns as the first round did and never reschedules: a
    second call made while the first one's lookups are pending returns at
    once the value computed with [null] for them.  If the first round
    returned a final value, the repetition returns exactly the same. *)
Theorem parseExpression_repeat grammar expr feature mapPrefix asFilter reevaluate c :
  let o := parseExpression grammar expr feature mapPrefix asFilter reevaluate c in
  let o' := parseExpression grammar expr feature mapPrefix asFilter reevaluate (pe_state o) in
  pe_state o' = pe_state o ∧ pe_warnings o' = pe_warnings o ∧
  pe_effect o' = (if reevaluate then Callback else NoCallback) ∧
  (is_reschedule (pe_effect o) = false → o' = o).
Proof.
  cbn zeta.
  destruct (run_feed mapPrefix (feed_text grammar feature asFilter expr) c []) as [[c' ps] r] eqn:Hrun.
  assert (Hre : run_feed mapPrefix (feed_text grammar feature asFilter expr) c' [] = (c', [], r)).
  { eapply run_feed_rerun; [exact Hrun| |done].
    pose proof (run_feed_store mapPrefix (feed_text grammar feature asFilter expr) c []) as Hs.
    by rewrite Hrun in Hs. }
  unfold parseExpression. rewrite Hrun.
  destruct ps as [|p ps]; simpl; rewrite Hre; simpl; repeat split; done.
Qed.

Lemma parseExpression_repeat_witness :
  let o := parseExpression (λ _ _ _, FGetFeature "l" "a" (VStr "v") (λ x, FDone x)) "x" VNull "" false true
             init_state in
  is_reschedule (pe_effect o) = true ∧
  pe_return (parseExpression (λ _ _ _, FGetFeature "l" "a" (VStr "v") (λ x, FDone x)) "x" VNull "" false true
               (pe_state o)) = VNull ∧
  pe_effect (parseExpression (λ _ _ _, FGetFeature "l" "a" (VStr "v") (λ x, FDone x)) "x" VNull "" false true
               (pe_state o)) = Callback.
Proof.
  cbn zeta. split; [reflexivity|]. split; [vm_compute; reflexivity|].
  exact (proj1 (proj2 (proj2 (parseExpression_repeat
    (λ _ _ _, FGetFeature "l" "a" (VStr "v") (λ x, FDone x)) "x" VNull "" false true init_state)))).
Defined.

(** X4: the nested [parseExpressionsAsync(...)] that line 98 calls at once
    runs its pass on the cache the first pass left: that pass pushes no
    promise, changes nothing and yields the same mapping and warnings, so
    the nested call recurses no further, and the whole synchronous part of
    a call leaves the cache exactly as its first pass did. *)
Theorem parseExpressionsAsync_nested_pass_idle fuel grammar expressions feature mapPrefix
    asFilter c :
  let '(c1, res1, _, w1) := batch_pass grammar expressions feature mapPrefix asFilter c in
  batch_pass grammar expressions feature mapPrefix asFilter c1 = (c1, res1, [], w1) ∧
  parseExpressionsAsync fuel grammar expressions feature mapPrefix asFilter c = (c1, res1).
Proof.
  pose proof (parseExpressionsAsync_state fuel grammar expressions feature mapPrefix asFilter c) as Hs.
  pose proof (parseExpressionsAsync_resolves_first_pass fuel grammar expressions feature mapPrefix
                asFilter c) as Hr.
  destruct (batch_pass grammar expressions feature mapPrefix asFilter c)
    as [[[c1 res1] ps1] w1] eqn:Hb.
  split; [by eapply batch_pass_rerun|].
  destruct (parseExpressionsAsync fuel grammar expressions feature mapPrefix asFilter c).
  simpl in *. by subst.
Qed.

(** X5: the promises a round of [parseExpression] waits on, from any cache
    state reachable from the initial one, belong to [getFeatures] calls the
    round itself made: each for a key that was neither pending nor stored
    when the round started, pairwise distinct, and still pending and owed a
    callback when the round returns.  A key looked up twice in one
    expression is fetched once, and a key already pending from another
    evaluation adds no promise. *)
Theorem round_promises_distinct_pending evs grammar expr feature mapPrefix asFilter reevaluate :
  let c := (run init_state evs).1 in
  let o := parseExpression grammar expr feature mapPrefix asFilter reevaluate c in
  match pe_effect o with
  | Reschedule ps =>
      NoDup (promise_keys (pe_state o) ps) ∧
      ∀ id, id ∈ ps → ∃ k, find_cb id (callbacks (pe_state o)) = Some k ∧
        k ∈ requests (pe_state o) ∧ (k ∉ requests c) ∧ store c !! k = None
  | _ => True
  end.
Proof.
  cbn zeta. set (c := (run init_state evs).1).
  destruct init_invariants as (Hw & Hi & Ho).
  assert (Hfr : ids_fresh c) by apply (run_invariants init_state evs Hw Hi Ho).
  assert (Hok : promises_ok c []).
  { split; [done|]. split; [constructor|]. intros id Hid. set_solver. }
  assert (Hfrom : promises_from c c []).
  { split; [done|]. split; [done|]. split; [done|]. intros id Hid. set_solver. }
  pose proof (run_feed_promises_ok mapPrefix (feed_text grammar feature asFilter expr) c [] Hok)
    as Hok'.
  pose proof (run_feed_promises_from mapPrefix (feed_text grammar feature asFilter expr) c c []
                Hfrom) as Hfrom'.
  unfold parseExpression.
  destruct (run_feed mapPrefix (feed_text grammar feature asFilter expr) c []) as [[c' [|p ps]] r];
    simpl; [by destruct reevaluate|].
  destruct Hok' as (_ & Hnd & Hps). destruct Hfrom' as (_ & _ & _ & Hps').
  split; [done|]. intros id Hid.
  destruct (Hps id Hid) as [k [Hk Hkr]]. destruct (Hps' id Hid) as [k' (Hk' & Hn & Hs)].
  rewrite Hk in Hk'. injection Hk' as <-. by exists k.
Qed.

Lemma round_promises_distinct_pending_witness :
  let c := (run init_state [EGet "l" "a" (VStr "3")]).1 in
  let o := parseExpression
             (λ _ _ _, FGetFeature "l" "a" (VStr "1") (λ _, FGetFeature "l" "a" (VStr "1") (λ _,
                FGetFeature "l" "a" (VStr "2") (λ _, FGetFeature "l" "a" (VStr "3") (λ _,
                  FDone VNull)))))
             "x" VNull "" false false c in
  pe_effect o = Reschedule [1; 2] ∧
  match pe_effect o with
  | Reschedule ps =>
      NoDup (promise_keys (pe_state o) ps) ∧
      ∀ id, id ∈ ps → ∃ k, find_cb id (callbacks (pe_state o)) = Some k ∧
        k ∈ requests (pe_state o) ∧ (k ∉ requests c) ∧ store c !! k = None
  | _ => True
  end.
Proof.
  split; [vm_compute; reflexivity|].
  exact (round_promises_distinct_pending [EGet "l" "a" (VStr "3")]
    (λ _ _ _, FGetFeature "l" "a" (VStr "1") (λ _, FGetFeature "l" "a" (VStr "1") (λ _,
       FGetFeature "l" "a" (VStr "2") (λ _, FGetFeature "l" "a" (VStr "3") (λ _,
         FDone VNull))))) "x" VNull "" false false).
Defined.

(** X6: the same for the shared [promises] list of a pass of
    [parseExpressionsAsync] over several expressions: one promise per
    distinct key the pass dispatched, each pending and owed a callback. *)
Theorem batch_promises_distinct_pending evs grammar expressions feature mapPrefix asFilter :
  let '(c1, _, ps, _) := batch_pass grammar expressions feature mapPrefix asFilter
                           (run init_state evs).1 in
  NoDup (promise_keys c1 ps) ∧
  ∀ id, id ∈ ps → ∃ k, find_cb id (callbacks c1) = Some k ∧ k ∈ requests c1.
Proof.
  set (c := (run init_state evs).1).
  assert (Hok : promises_ok c []).
  { destruct init_invariants as (Hw & Hi & Ho).
    split; [apply (run_invariants init_state evs Hw Hi Ho)|]. split; [constructor|].
    intros id Hid. set_solver. }
  pose proof (batch_fold_preserve grammar feature mapPrefix asFilter promises_ok expressions
                (c, ∅, [], []) (run_feed_promises_ok mapPrefix) Hok) as Hok'.
  unfold batch_pass.
  destruct (fold_left (batch_step grammar feature mapPrefix asFilter) expressions (c, ∅, [], []))
    as [[[c1 res] ps] w].
  simpl in Hok'. destruct Hok' as (_ & Hnd & Hps). done.
Qed.

Lemma batch_promises_distinct_pending_witness :
  (batch_pass (λ _ _ t, FGetFeature "l" "a" (VStr t) (λ _, FDone VNull))
     [("x", "1"); ("y", "1"); ("z", "2")] VNull "" false (run init_state []).1).1.2 = [0; 1] ∧
  let '(c1, _, ps, _) := batch_pass (λ _ _ t, FGetFeature "l" "a" (VStr t) (λ _, FDone VNull))
     [("x", "1"); ("y", "1"); ("z", "2")] VNull "" false (run init_state []).1 in
  NoDup (promise_keys c1 ps) ∧
  ∀ id, id ∈ ps → ∃ k, find_cb id (callbacks c1) = Some k ∧ k ∈ requests c1.
Proof.
  split; [vm_compute; reflexivity|].
  exact (batch_promises_distinct_pending [] (λ _ _ t, FGetFeature "l" "a" (VStr t) (λ _, FDone VNull))
    [("x", "1"); ("y", "1"); ("z", "2")] VNull "" false).
Defined.

(** X7: after [clear()], until a [get] of the same key, a key is neither
    stored nor pending, whatever callbacks of earlier requests fire
    meanwhile: the next [get] of it returns [null] and dispatches a new
    [getFeatures] call, even if the key was stored or pending before. *)
Theorem clear_forces_refetch c evs ds a v :
  Forall (gets_other (cache_key ds a v)) evs →
  let c' := (run (ExpressionFeatureCache.clear c) evs).1 in
  get ds a v c' =
    (VNull,
     {| store := store c'; requests := {[cache_key ds a v]} ∪ requests c';
        callbacks := callbacks c' ++ [(next_cb c', cache_key ds a v)];
        next_cb := S (next_cb c') |},
     Some (next_cb c')).
Proof.
  intros Hf. cbn zeta.
  destruct (run_absent (cache_key ds a v) (ExpressionFeatureCache.clear c) evs Hf)
    as [Hr Hs]; [simpl; set_solver|done|].
  unfold get. rewrite Hs, decide_False by done. done.
Qed.

Lemma clear_forces_refetch_witness :
  let c := (run init_state [EGet "d" "a" (VStr "v")]).1 in
  find_cb 0 (callbacks c) = Some (cache_key "d" "a" (VStr "v")) ∧
  let c' := (run (ExpressionFeatureCache.clear c) [EFire 0 (Some [VNum 2])]).1 in
  get "d" "a" (VStr "v") c' =
    (VNull,
     {| store := store c'; requests := {[cache_key "d" "a" (VStr "v")]} ∪ requests c';
        callbacks := callbacks c' ++ [(next_cb c', cache_key "d" "a" (VStr "v"))];
        next_cb := S (next_cb c') |},
     Some (next_cb c')).
Proof.
  split; [vm_compute; reflexivity|].
  apply clear_forces_refetch. repeat constructor. intros ? ? ? H. discriminate.
Defined.

(** X8: an evaluation that throws right after a [getFeature] call whose key
    was neither stored nor pending at that point, whatever lookups came
    before it, has still dispatched that fetch: [parseExpression] logs the
    warning, returns [null] and reschedules on the promises the run pushed,
    the last being that fetch's, so the failure is not final and the
    expression is evaluated again once the features have arrived. *)
Theorem lookup_then_throw_reschedules grammar expr feature mapPrefix asFilter reevaluate c
    l a v k c1 ps1 :
  feed_reaches mapPrefix (feed_text grammar feature asFilter expr) c [] (FGetFeature l a v k) c1 ps1 →
  k VNull = FThrow →
  store c1 !! cache_key (mapPrefix +:+ l) a v = None →
  cache_key (mapPrefix +:+ l) a v ∉ requests c1 →
  let o := parseExpression grammar expr feature mapPrefix asFilter reevaluate c in
  pe_warnings o = [warning expr] ∧ pe_return o = VNull ∧
  pe_effect o = Reschedule (ps1 ++ [next_cb c1]).
Proof.
  intros Hreach Hk Hs Hr. cbn zeta. unfold parseExpression.
  rewrite (feed_reaches_run _ _ _ _ _ _ _ Hreach). simpl.
  unfold get. rewrite Hs, decide_False by done. simpl. rewrite Hk. simpl.
  by destruct ps1.
Qed.

Lemma lookup_then_throw_reschedules_witness :
  let k2 := λ r, match r with VNull => FThrow | _ => FDone r end in
  let G : grammar_t := λ _ _ _,
    FGetFeature "l" "a" (VStr "1") (λ _, FGetFeature "l" "a" (VStr "2") k2) in
  let c1 := (get ("p_" +:+ "l") "a" (VStr "1") init_state).1.2 in
  feed_reaches "p_" (feed_text G VNull false "x") init_state []
    (FGetFeature "l" "a" (VStr "2") k2) c1 [0] ∧
  let o := parseExpression G "x" VNull "p_" false false init_state in
  pe_warnings o = [warning "x"] ∧ pe_return o = VNull ∧ pe_effect o = Reschedule ([0] ++ [next_cb c1]).
Proof.
  cbn zeta.
  assert (Hreach : feed_reaches "p_"
    (feed_text (λ _ _ _, FGetFeature "l" "a" (VStr "1") (λ _, FGetFeature "l" "a" (VStr "2")
                 (λ r, match r with VNull => FThrow | _ => FDone r end))) VNull false "x")
    init_state [] (FGetFeature "l" "a" (VStr "2") (λ r, match r with VNull => FThrow | _ => FDone r end))
    (get ("p_" +:+ "l") "a" (VStr "1") init_state).1.2 [0]).
  { eapply reaches_get; [reflexivity|]. apply reaches_here. }
  split; [exact Hreach|].
  refine (lookup_then_throw_reschedules _ "x" VNull "p_" false false init_state "l" "a" (VStr "2")
    (λ r, match r with VNull => FThrow | _ => FDone r end) _ [0] Hreach eq_refl _ _).
  - vm_compute. reflexivity.
  - refine (bool_decide_unpack _ _). vm_compute. reflexivity.
Defined.
